(** * Parlay finder: probability engine, parlay combination and activity filter

    A shallow embedding of the core of the parlay finder
    ([src/unnamed/part_005]: stat normalizer and probability engine;
    [src/lib/cache.ts]: parlay combination, correlation penalties and the
    activity filter).

    Modelling conventions.
    - JavaScript numbers are modelled by rationals [Q] (exact arithmetic; the
      rounding behaviour of doubles is outside the model). [NaN] is modelled
      only where a stat value is read by the probability engine ([jsnum]).
    - A field that may be [undefined] or [null] is an [option]; [None] stands
      for both where the code tests both.
    - [Array.prototype.sort] is stable (ES2019): it is modelled by a stable
      insertion sort driven by the same comparator.
    - A JS [Map] keeps insertion order: it is an association list updated in
      place.
    - [new Date(s).getTime()] and [Math.sqrt] are section variables
      ([getTime], [Math_sqrt]); every theorem holds for all of them. *)

From Stdlib Require Import QArith Qpower Qround Qabs Qminmax Lqa Ascii Sorting.Sorted Sorting.Permutation.
From stdpp Require Import base gmap strings list pretty.

Open Scope Q_scope.

(* ------------------------------------------------------------------ *)
(** ** JavaScript helpers *)

(** Truthiness of an optional string: [undefined] and [""] are falsy. *)
Definition truthy (o : option string) : bool :=
  match o with
  | Some s => negb (String.eqb s "")
  | None => false
  end.

(** [o || d] for an optional string and a string default. *)
Definition or_str (o : option string) (d : string) : string :=
  match o with
  | Some s => if String.eqb s "" then d else s
  | None => d
  end.

(** [n || 0] and [n ?? d] for an optional number. *)
Definition or0 (o : option Q) : Q :=
  match o with Some q => q | None => 0 end.

Definition ascii_upper (c : ascii) : ascii :=
  let n := Ascii.nat_of_ascii c in
  if (97 <=? n)%nat && (n <=? 122)%nat then Ascii.ascii_of_nat (n - 32) else c.

(** [String.prototype.toUpperCase] on ASCII text. *)
Fixpoint toUpperCase (s : string) : string :=
  match s with
  | EmptyString => EmptyString
  | String c s' => String (ascii_upper c) (toUpperCase s')
  end.

(** [o?.toUpperCase() === s]. *)
Definition upper_is (o : option string) (s : string) : bool :=
  match o with
  | Some p => String.eqb (toUpperCase p) s
  | None => false
  end.

(** [a === b] on optional strings ([undefined === undefined] holds). *)
Definition opt_str_eqb (a b : option string) : bool :=
  match a, b with
  | Some x, Some y => String.eqb x y
  | None, None => true
  | _, _ => false
  end.

(** [Math.round]: round half up. *)
Definition Math_round (q : Q) : Z := Qfloor (q + (1#2)).


(** [Number.prototype.toFixed(1)] on a rational. *)
Definition toFixed1 (q : Q) : string :=
  let sgn := if Qle_bool 0 q then "" else "-" in
  let z := Math_round (Qabs q * 10) in
  sgn +:+ pretty (Z.to_N (z / 10)%Z) +:+ "." +:+ pretty (Z.to_N (z mod 10)%Z).

(** [arr.slice(0, e)] with JavaScript's treatment of a negative end. *)
Definition js_slice0 {A} (l : list A) (e : Z) : list A :=
  let len := Z.of_nat (length l) in
  let e' := if (e <? 0)%Z then Z.max (len + e) 0 else Z.min e len in
  firstn (Z.to_nat e') l.

(** Stable sort by a comparator: [x] goes after every [y] with
    [cmp y x <= 0]. *)
Fixpoint insert_by {A} (cmp : A -> A -> Q) (x : A) (l : list A) : list A :=
  match l with
  | [] => [x]
  | y :: l' => if Qle_bool (cmp y x) 0 then y :: insert_by cmp x l' else x :: l
  end.

Definition js_sort {A} (cmp : A -> A -> Q) (l : list A) : list A :=
  fold_left (fun acc x => insert_by cmp x acc) l [].

(** A JS [Map<string, number>] of counters, in insertion order. *)
Fixpoint map_get (k : string) (m : list (string * nat)) : option nat :=
  match m with
  | [] => None
  | (k', v) :: m' => if String.eqb k k' then Some v else map_get k m'
  end.

Fixpoint map_set (k : string) (v : nat) (m : list (string * nat)) : list (string * nat) :=
  match m with
  | [] => [(k, v)]
  | (k', v') :: m' => if String.eqb k k' then (k', v) :: m' else (k', v') :: map_set k v m'
  end.

Definition map_incr (k : string) (m : list (string * nat)) : list (string * nat) :=
  map_set k (match map_get k m with Some c => c | None => 0%nat end + 1) m.

(* ------------------------------------------------------------------ *)
(** ** Data model ([types.ts]) *)

Inductive StatType := pass_yards | rush_yards | rec_yards | receptions | pass_tds.

#[global] Instance StatType_eq_dec : EqDecision StatType.
Proof. solve_decision. Defined.

Definition StatType_eqb (a b : StatType) : bool :=
  match a, b with
  | pass_yards, pass_yards | rush_yards, rush_yards | rec_yards, rec_yards
  | receptions, receptions | pass_tds, pass_tds => true
  | _, _ => false
  end.

Definition StatType_name (s : StatType) : string :=
  match s with
  | pass_yards => "pass_yards" | rush_yards => "rush_yards"
  | rec_yards => "rec_yards" | receptions => "receptions"
  | pass_tds => "pass_tds"
  end.

Inductive ConfidenceLevel := Speculative | Fair | Strong | Elite.

Module GameLog.
Record t := mk {
  playerId : string;
  playerName : option string;
  gameDate : string;
  gameId : option string;
  week : option Q;
  season : option Q;
  team : option string;
  opponent : option string;
  position : option string;
  snaps : option Q;
  pass_yards : option Q;
  rush_yards : option Q;
  rec_yards : option Q;
  receptions : option Q;
  pass_tds : option Q;
  (* extra fields read through [[key: string]: any] *)
  rush_attempts : option Q;
  targets : option Q
}.
End GameLog.

(** [log[statType]]. *)
Definition stat_of (st : StatType) (log : GameLog.t) : option Q :=
  match st with
  | pass_yards => GameLog.pass_yards log
  | rush_yards => GameLog.rush_yards log
  | rec_yards => GameLog.rec_yards log
  | receptions => GameLog.receptions log
  | pass_tds => GameLog.pass_tds log
  end.

Module Leg.
Record t := mk {
  playerId : string;
  playerName : option string;
  statType : StatType;
  threshold : Q;
  smoothedProb : Q;
  rawProb : Q;
  confidence : ConfidenceLevel;
  sampleSize : nat;
  lastNGameValues : list Q;
  consistency : option Q;
  reason : option string;
  gameId : option string;
  gameDate : option string;
  team : option string;
  opponent : option string;
  position : option string
}.
End Leg.

Record PenaltyBreakdown := mkPenalty {
  ptype : string;
  amount : Q;
  preason : string
}.

Module Parlay.
Record t := mk {
  legs : list Leg.t;
  estimatedProbability : Q;
  estProbability : option Q;
  penaltyBreakdown : option (list PenaltyBreakdown)
}.
End Parlay.

Module PlayerStatus.
Record t := mk {
  playerId : string;
  team : option string;
  isActive : bool;
  isOnBye : bool;
  hasRecentSnaps : bool;
  currentWeek : option Q
}.
End PlayerStatus.

(* ------------------------------------------------------------------ *)
(** ** Probability engine ([src/unnamed/part_005]) *)

(** Thresholds per stat type, ascending; [Object.entries] order. *)
Definition STAT_THRESHOLDS : list (StatType * list Q) :=
  [(pass_yards, [150; 175; 200; 225]);
   (rush_yards, [25; 40; 50; 60]);
   (rec_yards, [25; 40; 50; 60]);
   (receptions, [2; 3; 4; 5]);
   (pass_tds, [1])].

Definition DEFAULT_MIN_PROBABILITY : Q := 80 # 100.
Definition DEFAULT_MIN_SAMPLE_SIZE : Q := 6.
Definition DEFAULT_MIN_TOUCHES_PER_GAME : Q := 5.

Definition DEFAULT_BETA_A : Q := 4.
Definition DEFAULT_BETA_B : Q := 2.

Definition Qltb (a b : Q) : bool := negb (Qle_bool b a).

Definition Qnat (n : nat) : Q := inject_Z (Z.of_nat n).

(** [values.reduce((sum, val) => sum + val, 0)]. *)
Definition sum_values (values : list Q) : Q := fold_left (fun sum v => sum + v) values 0.

(** [gameLogs.map(log => log[statType]).filter(val => val !== undefined && val !== null)]. *)
Fixpoint statValues (st : StatType) (gameLogs : list GameLog.t) : list Q :=
  match gameLogs with
  | [] => []
  | log :: rest =>
      match stat_of st log with
      | Some v => v :: statValues st rest
      | None => statValues st rest
      end
  end.

Definition hasSufficientStatData (gameLogs : list GameLog.t) (st : StatType) (minCount : nat) : bool :=
  match gameLogs with
  | [] => false
  | _ => (minCount <=? length (statValues st gameLogs))%nat
  end.

Definition getConfidenceLevel (smoothedProb : Q) : ConfidenceLevel :=
  if Qle_bool (85 # 100) smoothedProb then Elite
  else if Qle_bool (75 # 100) smoothedProb then Strong
  else if Qle_bool (65 # 100) smoothedProb then Fair
  else Speculative.

Record ProbResult := mkProbResult {
  rawProb : Q;
  smoothedProb : Q;
  sampleSize : nat;
  lastNGameValues : list Q;
  consistency : Q
}.

Definition no_prob : ProbResult := mkProbResult 0 0 0 [] 0.

(** The string [statType.replace(/_/g, ' ')]. *)
Fixpoint underscores_to_spaces (s : string) : string :=
  match s with
  | EmptyString => EmptyString
  | String c s' =>
      String (if Ascii.eqb c "_"%char then " "%char else c) (underscores_to_spaces s')
  end.

Section Engine.

(** [Math.sqrt] *)
Variable Math_sqrt : Q -> Q.
(** [new Date(s).getTime()] *)
Variable getTime : string -> Z.

Definition calculateStandardDeviation (values : list Q) : Q :=
  match values with
  | [] => 0
  | [_] => 0
  | _ =>
      let n := Qnat (length values) in
      let mean := sum_values values / n in
      let variance := fold_left (fun sum v => sum + (v - mean) ^ 2) values 0 / n in
      Math_sqrt variance
  end.

(** Touches of one log for the position of the most recent log. *)
Definition touches_of (position : option string) (log : GameLog.t) : Q :=
  if upper_is position "RB" then
    (match GameLog.rush_attempts log with
     | Some a => a
     | None =>
         match GameLog.rush_yards log with
         | Some y => inject_Z (Math_round (y / (9 # 2)))
         | None => 0
         end
     end) + or0 (GameLog.receptions log)
  else if upper_is position "WR" || upper_is position "TE" then
    match GameLog.targets log with
    | Some t => t
    | None => or0 (GameLog.receptions log)
    end
  else 0.

Definition touches_loop (position : option string) (gameLogs : list GameLog.t) : Q * nat :=
  fold_left
    (fun acc log =>
       let '(totalTouches, gamesWithData) := acc in
       let touches := touches_of position log in
       if Qltb 0 touches then (totalTouches + touches, S gamesWithData)
       else (totalTouches, gamesWithData))
    gameLogs (0, 0%nat).

Definition calculateAverageTouchesPerGame (gameLogs : list GameLog.t) : Q :=
  match gameLogs with
  | [] => 0
  | first :: _ =>
      let position := GameLog.position first in
      if upper_is position "QB" then 100
      else
        let '(totalTouches, gamesWithData) := touches_loop position gameLogs in
        if (0 <? gamesWithData)%nat then totalTouches / Qnat gamesWithData else 0
  end.

Definition calculateProbability (gameLogs : list GameLog.t) (st : StatType)
    (threshold betaA betaB : Q) : ProbResult :=
  match gameLogs with
  | [] => no_prob
  | _ =>
      let statVals := statValues st gameLogs in
      match statVals with
      | [] => no_prob
      | _ =>
          let sampleSize := length statVals in
          let countAboveThreshold :=
            length (List.filter (fun v => Qle_bool threshold v) statVals) in
          mkProbResult
            (Qnat countAboveThreshold / Qnat sampleSize)
            ((Qnat countAboveThreshold + betaA) / (Qnat sampleSize + betaA + betaB))
            sampleSize statVals (calculateStandardDeviation statVals)
      end
  end.

Definition generateLegReason (st : StatType) (threshold rawProbability : Q)
    (sampleSize : nat) (lastNGameValues : list Q) (mostRecentValue : Q) : string :=
  let hitRate := Math_round (rawProbability * 100) in
  let average := sum_values lastNGameValues / Qnat (length lastNGameValues) in
  let avgDiff := average - threshold in
  let recentHit := Qle_bool threshold mostRecentValue in
  let statDisplay := underscores_to_spaces (StatType_name st) in
  let avgText :=
    if Qle_bool 0 avgDiff then pretty (Math_round avgDiff) +:+ " above"
    else pretty (Z.abs (Math_round avgDiff)) +:+ " below" in
  let recentText := if recentHit then "hit" else "missed" in
  "Hit " +:+ pretty hitRate +:+ "% over last " +:+ pretty sampleSize +:+
  " games, averaging " +:+ pretty (Math_round average) +:+ " " +:+ statDisplay +:+
  " (" +:+ avgText +:+ " threshold). Most recent: " +:+
  pretty (Math_round mostRecentValue) +:+ " " +:+ statDisplay +:+
  " (" +:+ recentText +:+ ").".

(** Comparator of [sortedLogs]: most recent first. *)
Definition date_desc_cmp (a b : GameLog.t) : Q :=
  inject_Z (getTime (GameLog.gameDate b) - getTime (GameLog.gameDate a)).

(** [[...gameLogs].sort(dateDesc).slice(0, lastN)], [lastN] defaulting to
    [gameLogs.length]. *)
Definition selectLogs (gameLogs : list GameLog.t) (lastN : option Z) : list GameLog.t :=
  js_slice0 (js_sort date_desc_cmp gameLogs)
    (default (Z.of_nat (length gameLogs)) lastN).

(** The filter a threshold must pass to produce a leg. *)
Definition leg_filter (minProbability minSampleSize : Q) (r : ProbResult) : bool :=
  Qle_bool minSampleSize (Qnat (sampleSize r)) &&
  Qle_bool minProbability (smoothedProb r) &&
  (0 <? length (lastNGameValues r))%nat.

Definition make_leg (playerId : string) (playerName : option string)
    (mostRecentLog : GameLog.t) (st : StatType) (threshold : Q) (r : ProbResult) : Leg.t :=
  let mostRecentValue := hd 0 (lastNGameValues r) in
  let reason := generateLegReason st threshold (rawProb r) (sampleSize r)
                  (lastNGameValues r) mostRecentValue in
  {| Leg.playerId := playerId;
     Leg.playerName := playerName;
     Leg.statType := st;
     Leg.threshold := threshold;
     Leg.smoothedProb := smoothedProb r;
     Leg.rawProb := rawProb r;
     Leg.confidence := getConfidenceLevel (smoothedProb r);
     Leg.sampleSize := sampleSize r;
     Leg.lastNGameValues := lastNGameValues r;
     Leg.consistency := Some (consistency r);
     Leg.reason := Some reason;
     Leg.gameId := GameLog.gameId mostRecentLog;
     Leg.gameDate := Some (GameLog.gameDate mostRecentLog);
     Leg.team := GameLog.team mostRecentLog;
     Leg.opponent := GameLog.opponent mostRecentLog;
     Leg.position := GameLog.position mostRecentLog |}.

(** The inner loop over the thresholds of one stat type: the first (lowest)
    threshold passing the filter yields the leg, then [break]. *)
Fixpoint threshold_loop (playerId : string) (playerName : option string)
    (sortedLogs : list GameLog.t) (mostRecentLog : GameLog.t)
    (minProbability minSampleSize : Q) (st : StatType) (thresholds : list Q)
    : option Leg.t :=
  match thresholds with
  | [] => None
  | threshold :: rest =>
      let r := calculateProbability sortedLogs st threshold DEFAULT_BETA_A DEFAULT_BETA_B in
      if leg_filter minProbability minSampleSize r
      then Some (make_leg playerId playerName mostRecentLog st threshold r)
      else threshold_loop playerId playerName sortedLogs mostRecentLog
             minProbability minSampleSize st rest
  end.

(** One iteration of the outer loop over [Object.entries(STAT_THRESHOLDS)]. *)
Definition stat_step (playerId : string) (playerName : option string)
    (sortedLogs : list GameLog.t) (minProbability minSampleSize : Q)
    (legs : list Leg.t) (entry : StatType * list Q) : list Leg.t :=
  let '(st, thresholds) := entry in
  if negb (hasSufficientStatData sortedLogs st 4) then legs
  else
    match sortedLogs with
    | [] => legs (* unreachable: no log has sufficient data *)
    | mostRecentLog :: _ =>
        match threshold_loop playerId playerName sortedLogs mostRecentLog
                minProbability minSampleSize st thresholds with
        | Some leg => legs ++ [leg]
        | None => legs
        end
    end.

Definition leg_cmp (a b : Leg.t) : Q :=
  if negb (Qeq_bool (Leg.smoothedProb b) (Leg.smoothedProb a))
  then Leg.smoothedProb b - Leg.smoothedProb a
  else or0 (Leg.consistency a) - or0 (Leg.consistency b).

Definition generateLegs (playerId : string) (playerName : option string)
    (gameLogs : list GameLog.t) (lastN : option Z)
    (minProbability minSampleSize minTouchesPerGame : option Q) : list Leg.t :=
  let minProbability := default DEFAULT_MIN_PROBABILITY minProbability in
  let minSampleSize := default DEFAULT_MIN_SAMPLE_SIZE minSampleSize in
  let minTouchesPerGame := default DEFAULT_MIN_TOUCHES_PER_GAME minTouchesPerGame in
  let sortedLogs := selectLogs gameLogs lastN in
  let avgTouchesPerGame := calculateAverageTouchesPerGame sortedLogs in
  if Qltb avgTouchesPerGame minTouchesPerGame then []
  else
    let legs := fold_left (stat_step playerId playerName sortedLogs minProbability minSampleSize)
                  STAT_THRESHOLDS [] in
    js_sort leg_cmp legs.

Definition probAt (sortedLogs : list GameLog.t) (st : StatType) (t : Q) : ProbResult :=
  calculateProbability sortedLogs st t DEFAULT_BETA_A DEFAULT_BETA_B.

Definition opt_to_list {A} (o : option A) : list A :=
  match o with Some x => [x] | None => [] end.

(** The leg one entry of [STAT_THRESHOLDS] contributes. *)
Definition entry_leg pid pname sorted minP minS (entry : StatType * list Q) : option Leg.t :=
  let '(st, thresholds) := entry in
  if hasSufficientStatData sorted st 4 then
    match sorted with
    | [] => None
    | mrl :: _ => threshold_loop pid pname sorted mrl minP minS st thresholds
    end
  else None.

End Engine.

(* ------------------------------------------------------------------ *)
(** ** The stat column with NaN

    A stat field filled by [parseInt] on a non-numeric CSV cell (in
    [nfl-data.ts]) holds [NaN]. [hasSufficientStatData] and
    [calculateProbability] only read the column
    [gameLogs.map(log => log[statType])] (and [gameLogs.length], its
    length); here they are embedded over such a column, whose cells are
    [None] for [undefined]/[null], or a number that may be [NaN]. *)










Section EngineNaN.

(** [Math.sqrt] *)
Variable Math_sqrt : Q -> Q.





End EngineNaN.

(* ------------------------------------------------------------------ *)
(** ** Parlay combination and correlation penalties ([src/lib/cache.ts]) *)

(** [Math.max(a, b)] and [Math.min(a, b)]. *)
Definition js_max (a b : Q) : Q := if Qle_bool b a then a else b.
Definition js_min (a b : Q) : Q := if Qle_bool a b then a else b.

Definition isQBPassingYards (leg : Leg.t) : bool :=
  StatType_eqb (Leg.statType leg) pass_yards && upper_is (Leg.position leg) "QB".

Definition isWRTEReceivingYards (leg : Leg.t) : bool :=
  StatType_eqb (Leg.statType leg) rec_yards &&
  (upper_is (Leg.position leg) "WR" || upper_is (Leg.position leg) "TE").

Definition violatesSameTeamStack (leg1 leg2 : Leg.t) (allowSameTeamStack : bool) : bool :=
  if allowSameTeamStack then false
  else if negb (truthy (Leg.team leg1)) || negb (truthy (Leg.team leg2))
          || negb (opt_str_eqb (Leg.team leg1) (Leg.team leg2)) then false
  else (isQBPassingYards leg1 && isWRTEReceivingYards leg2) ||
       (isQBPassingYards leg2 && isWRTEReceivingYards leg1).

(** [leg.gameId || leg.gameDate || 'unknown']. *)
Definition gameKey (leg : Leg.t) : string :=
  or_str (Leg.gameId leg) (or_str (Leg.gameDate leg) "unknown").

(** The per-game loop of [isValidParlay], with its early [return false]. *)
Fixpoint game_count_check (legs : list Leg.t) (gameCounts : list (string * nat)) : bool :=
  match legs with
  | [] => true
  | leg :: rest =>
      let k := gameKey leg in
      let count := (match map_get k gameCounts with Some c => c | None => 0 end + 1)%nat in
      if (1 <? count)%nat then false
      else game_count_check rest (map_set k count gameCounts)
  end.

(** The double loop over pairs [i < j] of [isValidParlay]. *)
Fixpoint stack_pairs_ok (allowSameTeamStack : bool) (legs : list Leg.t) : bool :=
  match legs with
  | [] => true
  | leg1 :: rest =>
      forallb (fun leg2 => negb (violatesSameTeamStack leg1 leg2 allowSameTeamStack)) rest &&
      stack_pairs_ok allowSameTeamStack rest
  end.

Definition isValidParlay (legs : list Leg.t) (legCount : Q)
    (allowSameGame allowSameTeamStack : bool) : bool :=
  let playerIds := map Leg.playerId legs in
  if negb (Qeq_bool (Qnat (length legs)) legCount) then false
  else if negb (Nat.eqb (size (list_to_set playerIds : gset string)) (length playerIds)) then false
  else if negb allowSameGame && negb (game_count_check legs []) then false
  else if negb allowSameTeamStack && negb (stack_pairs_ok allowSameTeamStack legs) then false
  else true.

Definition calculateParlayProbability (legs : list Leg.t) : Q :=
  fold_left (fun product leg => product * Leg.smoothedProb leg) legs 1.

(** [gameCounts]: legs per game key, in first-appearance order. *)
Definition gameCounts_of (legs : list Leg.t) : list (string * nat) :=
  fold_left (fun m leg => map_incr (gameKey leg) m) legs [].

Definition same_game_step (acc : Q * list PenaltyBreakdown) (entry : string * nat)
    : Q * list PenaltyBreakdown :=
  let '(multiplier, penalties) := acc in
  let '(key, count) := entry in
  if (1 <? count)%nat then
    let extraLegs := (count - 1)%nat in
    let penaltyMultiplier := (9 # 10) ^ Z.of_nat extraLegs in
    let penaltyAmount := 1 - penaltyMultiplier in
    (multiplier * penaltyMultiplier,
     penalties ++ [mkPenalty "same_game" penaltyAmount
                     (pretty count +:+ " legs from same game (" +:+ key +:+ ") - " +:+
                      toFixed1 (penaltyAmount * 100) +:+ "% penalty")])
  else acc.

(** The same-game loop, from a running multiplier and penalty list. *)
Definition same_game_penalties (legs : list Leg.t) (acc : Q * list PenaltyBreakdown)
    : Q * list PenaltyBreakdown :=
  fold_left same_game_step (gameCounts_of legs) acc.

(** [teamLegs.find(t => t.team === team)!.legs.push(leg)], creating the
    group first when absent. *)
Fixpoint teamLegs_add (team : string) (leg : Leg.t) (teamLegs : list (string * list Leg.t))
    : list (string * list Leg.t) :=
  match teamLegs with
  | [] => [(team, [leg])]
  | (t, ls) :: rest =>
      if String.eqb t team then (t, ls ++ [leg]) :: rest
      else (t, ls) :: teamLegs_add team leg rest
  end.

(** [teamCounts] and [teamLegs], built in one pass over the legs. *)
Definition team_collect (legs : list Leg.t) : list (string * nat) * list (string * list Leg.t) :=
  fold_left
    (fun acc leg =>
       let '(teamCounts, teamLegs) := acc in
       match Leg.team leg with
       | Some t => if String.eqb t "" then acc
                   else (map_incr t teamCounts, teamLegs_add t leg teamLegs)
       | None => acc
       end)
    legs ([], []).

Definition same_team_step (acc : Q * list PenaltyBreakdown) (entry : string * nat)
    : Q * list PenaltyBreakdown :=
  let '(multiplier, penalties) := acc in
  let '(team, count) := entry in
  if (1 <? count)%nat then
    let extraLegs := (count - 1)%nat in
    let penaltyMultiplier := (95 # 100) ^ Z.of_nat extraLegs in
    let penaltyAmount := 1 - penaltyMultiplier in
    (multiplier * penaltyMultiplier,
     penalties ++ [mkPenalty "same_team" penaltyAmount
                     (pretty count +:+ " legs from " +:+ team +:+ " - " +:+
                      toFixed1 (penaltyAmount * 100) +:+ "% penalty")])
  else acc.

Definition qb_wr_step (acc : Q * list PenaltyBreakdown) (teamGroup : string * list Leg.t)
    : Q * list PenaltyBreakdown :=
  let '(multiplier, penalties) := acc in
  let '(team, groupLegs) := teamGroup in
  if existsb isQBPassingYards groupLegs && existsb isWRTEReceivingYards groupLegs then
    (multiplier * (85 # 100),
     penalties ++ [mkPenalty "qb_wr_stack" (15 # 100)
                     ("QB pass yards + WR/TE rec yards from " +:+ team +:+ " - 15% penalty")])
  else acc.

(** Returns [(adjustedProbability, penalties)]. *)
Definition calculateParlayPenalties (legs : list Leg.t) : Q * list PenaltyBreakdown :=
  let baseProbability := calculateParlayProbability legs in
  let acc := same_game_penalties legs (1, []) in
  let '(teamCounts, teamLegs) := team_collect legs in
  let acc := fold_left same_team_step teamCounts acc in
  let '(multiplier, penalties) := fold_left qb_wr_step teamLegs acc in
  let adjustedProbability := baseProbability * multiplier in
  (js_max adjustedProbability 0, penalties).

(** The options read by [generateParlays] ([minLegs], [maxLegs],
    [maxLegsPerGame] and [maxLegsPerTeam] are never read there). *)
Module ParlayOptions.
Record t := mk {
  legCount : option Q;
  singleGame : option bool;
  gameId : option string;
  minLegProb : option Q;
  allowSameGame : option bool;
  allowSameTeamStack : option bool
}.
End ParlayOptions.

(** [Math.max(2, Math.min(8, options.legCount ?? 3))]. *)
Definition effectiveLegCount (options : ParlayOptions.t) : Q :=
  js_max 2 (js_min 8 (default 3 (ParlayOptions.legCount options))).

Definition mkParlayFrom (current : list Leg.t) : Parlay.t :=
  let '(adjustedProbability, penalties) := calculateParlayPenalties current in
  {| Parlay.legs := current;
     Parlay.estimatedProbability := adjustedProbability;
     Parlay.estProbability := Some adjustedProbability;
     Parlay.penaltyBreakdown := match penalties with [] => None | _ => Some penalties end |}.

(** [generateCombinations(arr, size, start, current)]: [arr_rest] is
    [arr.slice(start)]; the loop [for (i = start; ...)] is the recursion on
    [arr_rest], the second call continuing the loop with [current]
    unchanged. *)
Fixpoint generateCombinations (legCount : Q) (allowSameGame allowSameTeamStack : bool)
    (size : Q) (arr_rest : list Leg.t) (current : list Leg.t) : list Parlay.t :=
  if Qeq_bool (Qnat (length current)) size then
    if isValidParlay current legCount allowSameGame allowSameTeamStack
    then [mkParlayFrom current] else []
  else
    match arr_rest with
    | [] => []
    | x :: rest =>
        generateCombinations legCount allowSameGame allowSameTeamStack size rest (current ++ [x]) ++
        generateCombinations legCount allowSameGame allowSameTeamStack size rest current
    end.

(** [parlay.estProbability!] (always set by [generateParlays]). *)
Definition estProb (p : Parlay.t) : Q := default 0 (Parlay.estProbability p).

Definition avgLegProb (p : Parlay.t) : Q :=
  fold_left (fun sum leg => sum + Leg.smoothedProb leg) (Parlay.legs p) 0 /
  Qnat (length (Parlay.legs p)).

Definition parlay_cmp (a b : Parlay.t * Q) : Q :=
  let probDiff := estProb (fst b) - estProb (fst a) in
  if negb (Qeq_bool probDiff 0) then probDiff else snd b - snd a.

Definition generateParlays (candidateLegs : list Leg.t) (options : ParlayOptions.t)
    : list Parlay.t :=
  let legCount := effectiveLegCount options in
  let minLegProb := default (80 # 100) (ParlayOptions.minLegProb options) in
  let singleGame := default false (ParlayOptions.singleGame options) in
  let allowSameGame :=
    if singleGame then true else default false (ParlayOptions.allowSameGame options) in
  let allowSameTeamStack := default false (ParlayOptions.allowSameTeamStack options) in
  let filteredLegs :=
    List.filter (fun leg => Qle_bool minLegProb (Leg.smoothedProb leg)) candidateLegs in
  let filteredLegs :=
    if singleGame && truthy (ParlayOptions.gameId options)
    then List.filter (fun leg => opt_str_eqb (Leg.gameId leg) (ParlayOptions.gameId options))
           filteredLegs
    else filteredLegs in
  let parlays :=
    generateCombinations legCount allowSameGame allowSameTeamStack legCount filteredLegs [] in
  let parlaysWithAvgProb := map (fun p => (p, avgLegProb p)) parlays in
  map fst (js_sort parlay_cmp parlaysWithAvgProb).

Definition getTopParlays (candidateLegs : list Leg.t) (topN : option Z)
    (options : ParlayOptions.t) : list Parlay.t :=
  js_slice0 (generateParlays candidateLegs options) (default 20%Z topN).

(* ------------------------------------------------------------------ *)
(** ** Activity filter ([src/lib/cache.ts]) *)

Definition opt_Q_eqb (o : option Q) (q : Q) : bool :=
  match o with Some x => Qeq_bool x q | None => false end.

Definition getByeWeekTeams (gameLogs : list GameLog.t) (week season : Q) : gset string :=
  let teamsWithGames : gset string :=
    fold_left (fun s log =>
                 match GameLog.team log with
                 | Some t => if opt_Q_eqb (GameLog.week log) week &&
                                opt_Q_eqb (GameLog.season log) season &&
                                negb (String.eqb t "")
                             then {[ t ]} ∪ s else s
                 | None => s
                 end) gameLogs ∅ in
  let allTeams : gset string :=
    fold_left (fun s log =>
                 match GameLog.team log with
                 | Some t => if String.eqb t "" then s else {[ t ]} ∪ s
                 | None => s
                 end) gameLogs ∅ in
  allTeams ∖ teamsWithGames.

Section Activity.

(** [new Date(s).getTime()] *)
Variable getTime : string -> Z.

Definition snaps_positive (log : GameLog.t) : bool :=
  match GameLog.snaps log with Some s => Qltb 0 s | None => false end.

Definition player_logs (gameLogs : list GameLog.t) (playerId : string) : list GameLog.t :=
  List.filter (fun log => String.eqb (GameLog.playerId log) playerId) gameLogs.

Definition hasSnapsInLastNGames (gameLogs : list GameLog.t) (playerId : string) (n : nat) : bool :=
  let sortedLogs :=
    js_slice0 (js_sort (date_desc_cmp getTime) (player_logs gameLogs playerId)) (Z.of_nat n) in
  if (length sortedLogs <? n)%nat then false
  else forallb snaps_positive sortedLogs.

Definition isPlayerActive (gameLogs : list GameLog.t) (playerId : string)
    (currentWeek season : Q) : PlayerStatus.t :=
  match player_logs gameLogs playerId with
  | [] =>
      {| PlayerStatus.playerId := playerId; PlayerStatus.team := None;
         PlayerStatus.isActive := false; PlayerStatus.isOnBye := false;
         PlayerStatus.hasRecentSnaps := false;
         PlayerStatus.currentWeek := Some currentWeek |}
  | first :: _ =>
      let team := GameLog.team first in
      let byeWeekTeams := getByeWeekTeams gameLogs currentWeek season in
      let isOnBye :=
        match team with
        | Some t => if String.eqb t "" then false else bool_decide (t ∈ byeWeekTeams)
        | None => false
        end in
      let hasRecentSnaps := hasSnapsInLastNGames gameLogs playerId 2 in
      {| PlayerStatus.playerId := playerId; PlayerStatus.team := team;
         PlayerStatus.isActive := negb isOnBye && hasRecentSnaps;
         PlayerStatus.isOnBye := isOnBye;
         PlayerStatus.hasRecentSnaps := hasRecentSnaps;
         PlayerStatus.currentWeek := Some currentWeek |}
  end.

End Activity.

(* ------------------------------------------------------------------ *)
(** ** Stat normalizer ([normalizeGameLog], [src/unnamed/part_005]) *)

(** A JavaScript value held by a field of a raw record; a raw record is a
    [gmap string JSVal] of its own enumerable fields. *)
Inductive JSVal := JUndefined | JNull | JBool (b : bool) | JNum (q : Q) | JStr (s : string) | JObject.

Definition statMappings : list (string * string) :=
  [("passing_yards", "pass_yards"); ("rushing_yards", "rush_yards");
   ("receiving_yards", "rec_yards"); ("rec", "receptions");
   ("passing_tds", "pass_tds"); ("pass_td", "pass_tds")].

Definition expectedStatFields : list string :=
  ["pass_yards"; "rush_yards"; "rec_yards"; "receptions"; "pass_tds"].

(** [!(k in o) || o[k] === null || o[k] === undefined]. *)
Definition is_nullish (v : option JSVal) : bool :=
  match v with
  | None | Some JUndefined | Some JNull => true
  | _ => false
  end.

Definition mapping_step (normalized : gmap string JSVal) (m : string * string) : gmap string JSVal :=
  let '(altKey, standardKey) := m in
  match normalized !! altKey with
  | Some v =>
      if is_nullish (normalized !! standardKey) then <[standardKey := v]> normalized
      else normalized
  | None => normalized
  end.

Definition default_step (normalized : gmap string JSVal) (field : string) : gmap string JSVal :=
  if is_nullish (normalized !! field) then <[field := JNum 0]> normalized else normalized.

Definition normalizeGameLog (gameLog : gmap string JSVal) : gmap string JSVal :=
  let normalized := fold_left mapping_step statMappings gameLog in
  fold_left default_step expectedStatFields normalized.

(* ------------------------------------------------------------------ *)
(** ** Callers of the engine and the filter *)

(** [generateLegsForPlayers]: a player is [(id, name)] and
    [gameLogsByPlayerId] a record of log arrays by player id. *)
Section EngineCallers.

Variable Math_sqrt : Q -> Q.
Variable getTime : string -> Z.

Definition generateLegsForPlayers (players : list (string * option string))
    (gameLogsByPlayerId : gmap string (list GameLog.t)) (lastN : option Z)
    (minProbability minSampleSize minTouchesPerGame : option Q) : list Leg.t :=
  let minProbability := default DEFAULT_MIN_PROBABILITY minProbability in
  let minSampleSize := default DEFAULT_MIN_SAMPLE_SIZE minSampleSize in
  let minTouchesPerGame := default DEFAULT_MIN_TOUCHES_PER_GAME minTouchesPerGame in
  let allLegs :=
    fold_left
      (fun allLegs player =>
         let playerGameLogs := default [] (gameLogsByPlayerId !! fst player) in
         let legs := generateLegs Math_sqrt getTime (fst player) (snd player) playerGameLogs
                       lastN (Some minProbability) (Some minSampleSize) (Some minTouchesPerGame) in
         allLegs ++ legs)
      players [] in
  js_sort leg_cmp allLegs.

(** [filterActivePlayers]: the ids of the logs (non-empty ones), the active
    ones among them, then the logs of those. *)
Definition filterActivePlayers (gameLogs : list GameLog.t) (currentWeek season : Q)
    : list GameLog.t :=
  let playerIds : gset string :=
    fold_left (fun s log => if truthy (Some (GameLog.playerId log))
                            then {[ GameLog.playerId log ]} ∪ s else s) gameLogs ∅ in
  let activePlayerIds : gset string :=
    set_fold (fun playerId acc =>
                if PlayerStatus.isActive (isPlayerActive getTime gameLogs playerId currentWeek season)
                then {[ playerId ]} ∪ acc else acc) ∅ playerIds in
  List.filter (fun log => bool_decide (GameLog.playerId log ∈ activePlayerIds)) gameLogs.

End EngineCallers.

(* ------------------------------------------------------------------ *)
(** ** Parlay score ([calculateParlayScore], [src/lib/cache.ts]) *)

Definition isTDProp (st : StatType) : bool := StatType_eqb st pass_tds.

Definition isVolumeStat (st : StatType) (position : option string) : bool :=
  (StatType_eqb st rush_yards && upper_is position "RB") ||
  (StatType_eqb st rec_yards && (upper_is position "WR" || upper_is position "TE")) ||
  (StatType_eqb st receptions && (upper_is position "WR" || upper_is position "TE")).

Definition countUniqueGames (legs : list Leg.t) : nat :=
  size (fold_left (fun games leg => {[ gameKey leg ]} ∪ games) legs (∅ : gset string)).

Definition countTeamScoringDependencies (legs : list Leg.t) : list (string * nat) :=
  fold_left
    (fun teamTDCounts leg =>
       match Leg.team leg with
       | Some t => if isTDProp (Leg.statType leg) && negb (String.eqb t "")
                   then map_incr t teamTDCounts else teamTDCounts
       | None => teamTDCounts
       end)
    legs [].

(** [None] is [NaN]: with no legs, [uniqueGames / totalLegs] is [0 / 0],
    and the score and [Math.max] of it are [NaN]. ([tdPropCount] is computed
    by the source and never used.) *)
Definition calculateParlayScore (legs : list Leg.t) : option Q :=
  let baseProbability := calculateParlayProbability legs in
  let uniqueGames := countUniqueGames legs in
  let totalLegs := length legs in
  if Nat.eqb totalLegs 0 then None
  else
    let gameDiversityRatio := Qnat uniqueGames / Qnat totalLegs in
    let gameDiversityBonus := gameDiversityRatio * (1 # 10) in
    let volumeStatCount :=
      length (List.filter (fun leg => isVolumeStat (Leg.statType leg) (Leg.position leg)) legs) in
    let volumeStatRatio := Qnat volumeStatCount / Qnat totalLegs in
    let volumeStatBonus := volumeStatRatio * (5 # 100) in
    let teamScoringPenalty :=
      fold_left (fun penalty (e : string * nat) =>
                   if (1 <? snd e)%nat then penalty + Qnat (snd e - 1) * (15 # 100) else penalty)
        (countTeamScoringDependencies legs) 0 in
    let score :=
      baseProbability * (1 + gameDiversityBonus + volumeStatBonus - teamScoringPenalty) in
    Some (js_max score (baseProbability * (1 # 10))).

(* ------------------------------------------------------------------ *)
(** ** File cache ([src/lib/cache.ts]) *)

(** A JavaScript string as its UTF-16 code units. *)
Definition js_string := list N.

Definition js_of_string (s : string) : js_string :=
  map (fun c => N.of_nat (Ascii.nat_of_ascii c)) (String.list_ascii_of_string s).

(** A code unit outside [/[^a-zA-Z0-9-_]/]. *)
Definition key_unit_allowed (c : N) : bool :=
  ((48 <=? c) && (c <=? 57))%N || ((65 <=? c) && (c <=? 90))%N ||
  ((97 <=? c) && (c <=? 122))%N || (c =? 45)%N || (c =? 95)%N.

(** [key.replace(/[^a-zA-Z0-9-_]/g, '_')]: the pattern has no [u] flag, so
    it matches single code units. *)
Definition sanitizeKey (key : js_string) : js_string :=
  map (fun c => if key_unit_allowed c then c else 95%N) key.

(** [getCacheFilePath]: the name of the file in [CACHE_DIR]
    ([path.join(CACHE_DIR, name)]). *)
Definition getCacheFilePath (key : js_string) : js_string :=
  sanitizeKey key ++ js_of_string ".json".

(** [s.endsWith(suffix)]. *)
Definition js_endsWith (s suffix : js_string) : bool :=
  bool_decide (length suffix <= length s)%nat &&
  bool_decide (drop (length s - length suffix) s = suffix).

Record CacheEntry (V : Type) := mkCacheEntry { data : V; expiresAt : Q }.
Arguments mkCacheEntry {V}.
Arguments data {V}.
Arguments expiresAt {V}.

(** The files of [CACHE_DIR] by name, with their contents. The file-system
    calls are taken to succeed; [JSON.stringify] and [JSON.parse] of an
    entry are [stringify] and [parse], [None] when [JSON.parse] throws (the
    [catch] then returns [null]); [Date.now()] is [now]. *)

Section Cache.

Context {V : Type}.
Variable stringify : CacheEntry V -> string.
Variable parse : string -> option (CacheEntry V).

Definition getCache (key : js_string) (now : Q) (fs : gmap js_string string) : option V * gmap js_string string :=
  let filePath := getCacheFilePath key in
  match fs !! filePath with
  | None => (None, fs)
  | Some fileContent =>
      match parse fileContent with
      | None => (None, fs)
      | Some entry =>
          if Qltb (expiresAt entry) now then (None, delete filePath fs)
          else (Some (data entry), fs)
      end
  end.

Definition setCache (key : js_string) (d : V) (ttlMs now : Q) (fs : gmap js_string string) : gmap js_string string :=
  let filePath := getCacheFilePath key in
  let entry := mkCacheEntry d (now + ttlMs) in
  <[ filePath := stringify entry ]> fs.

End Cache.

Definition deleteCache (key : js_string) (fs : gmap js_string string) : gmap js_string string :=
  delete (getCacheFilePath key) fs.

(** [clearCache]: every file whose name ends in [.json] is removed. *)
Definition clearCache (fs : gmap js_string string) : gmap js_string string :=
  filter (fun kv => js_endsWith kv.1 (js_of_string ".json") = false) fs.

(* ------------------------------------------------------------------ *)
(** ** Orders and views used in the statements *)

(** The confidence levels from lowest to highest. *)
Definition conf_rank (c : ConfidenceLevel) : nat :=
  match c with Speculative => 0 | Fair => 1 | Strong => 2 | Elite => 3 end%nat.

(** The order the leg comparator sorts into: [a] may precede [b] when [b]
    has a lower smoothed probability, or the same one and a consistency
    (standard deviation, missing as 0) no lower. *)
Definition leg_before (a b : Leg.t) : Prop :=
  Leg.smoothedProb b < Leg.smoothedProb a \/
  (Leg.smoothedProb a == Leg.smoothedProb b /\ or0 (Leg.consistency a) <= or0 (Leg.consistency b)).

(** The legs with a truthy team, as [(team, leg)]. *)
Definition team_pairs (legs : list Leg.t) : list (string * Leg.t) :=
  flat_map (fun leg => match Leg.team leg with
                       | Some t => if String.eqb t "" then [] else [(t, leg)]
                       | None => []
                       end) legs.

(* ------------------------------------------------------------------ *)
(** ** Sample inputs *)

(** The digits of an ISO date read as one number: for dates written
    [YYYY-MM-DD] it orders them as [new Date(s).getTime()] does. *)
Fixpoint digits_value_acc (s : string) (acc : Z) : Z :=
  match s with
  | EmptyString => acc
  | String c s' =>
      let n := Z.of_nat (Ascii.nat_of_ascii c) in
      if ((48 <=? n) && (n <=? 57))%Z then digits_value_acc s' (acc * 10 + (n - 48))
      else digits_value_acc s' acc
  end.

Definition sample_getTime (s : string) : Z := digits_value_acc s 0.

(** A stand-in for [Math.sqrt] (only the legs' [consistency] field reads it). *)
Definition sample_sqrt (q : Q) : Q := q.

Definition sample_log (pid date gid : string) (wk : Q) (team pos : string)
    (snaps rushAttempts rushYds recYds recs : option Q) : GameLog.t :=
  GameLog.mk pid None date (Some gid) (Some wk) (Some 2024) (Some team) None (Some pos)
    snaps (Some 0) rushYds recYds recs (Some 0) rushAttempts None.

(** A running back with 12 touches in the most recent game and none in the
    three before. *)
Definition rb_logs : list GameLog.t :=
  [sample_log "rb1" "2024-09-29" "G4" 4 "KC" "RB" (Some 40) (Some 12) (Some 60) (Some 0) (Some 0);
   sample_log "rb1" "2024-09-22" "G3" 3 "KC" "RB" (Some 10) (Some 0) (Some 0) (Some 0) (Some 0);
   sample_log "rb1" "2024-09-15" "G2" 2 "KC" "RB" (Some 10) (Some 0) (Some 0) (Some 0) (Some 0);
   sample_log "rb1" "2024-09-08" "G1" 1 "KC" "RB" (Some 10) (Some 0) (Some 0) (Some 0) (Some 0)].

(** A kicker: normalized logs, every tracked stat 0, no touches. *)
Definition k_logs : list GameLog.t :=
  [sample_log "k1" "2024-09-29" "G4" 4 "KC" "K" (Some 8) None (Some 0) (Some 0) (Some 0);
   sample_log "k1" "2024-09-22" "G3" 3 "KC" "K" (Some 8) None (Some 0) (Some 0) (Some 0);
   sample_log "k1" "2024-09-15" "G2" 2 "KC" "K" (Some 8) None (Some 0) (Some 0) (Some 0);
   sample_log "k1" "2024-09-08" "G1" 1 "KC" "K" (Some 8) None (Some 0) (Some 0) (Some 0)].

(** A receiver with the six receiving-yard games of the spec's scenario. *)
Definition wr_logs : list GameLog.t :=
  [sample_log "wr1" "2024-10-13" "G6" 6 "BUF" "WR" (Some 50) None (Some 0) (Some 80) (Some 9);
   sample_log "wr1" "2024-10-06" "G5" 5 "BUF" "WR" (Some 50) None (Some 0) (Some 60) (Some 8);
   sample_log "wr1" "2024-09-29" "G4" 4 "BUF" "WR" (Some 50) None (Some 0) (Some 55) (Some 7);
   sample_log "wr1" "2024-09-22" "G3" 3 "BUF" "WR" (Some 50) None (Some 0) (Some 40) (Some 6);
   sample_log "wr1" "2024-09-15" "G2" 2 "BUF" "WR" (Some 50) None (Some 0) (Some 30) (Some 6);
   sample_log "wr1" "2024-09-08" "G1" 1 "BUF" "WR" (Some 50) None (Some 0) (Some 20) (Some 5)].

Definition wr_legs : list Leg.t :=
  generateLegs sample_sqrt sample_getTime "wr1" None wr_logs None (Some (60 # 100)) None None.

Definition wr_leg0 : Leg.t :=
  nth 0 wr_legs (make_leg "" None (sample_log "" "" "" 0 "" "" None None None None None)
                   pass_yards 0 no_prob).


Definition sample_leg (pid : string) (st : StatType) (threshold p : Q)
    (gid team pos : string) : Leg.t :=
  Leg.mk pid None st threshold p p (getConfidenceLevel p) 6 [] (Some 0) None
    (Some gid) (Some "2024-09-29") (Some team) None (Some pos).

(** Three legs of three players in three games. *)
Definition three_legs : list Leg.t :=
  [sample_leg "wr1" rec_yards 40 (85 # 100) "G1" "BUF" "WR";
   sample_leg "rb1" rush_yards 25 (90 # 100) "G2" "KC" "RB";
   sample_leg "qb1" pass_yards 200 (82 # 100) "G3" "DAL" "QB"].

(** Two-leg parlays, default options otherwise. *)
Definition two_leg_options : ParlayOptions.t :=
  ParlayOptions.mk (Some 2) None None None None None.

Definition three_parlays : list Parlay.t := generateParlays three_legs two_leg_options.

Definition three_parlay0 : Parlay.t :=
  nth 0 three_parlays (Parlay.mk [] 0 None None).

(** Two legs of one game, teams apart, smoothed 0.80 and 0.75. *)
Definition same_game_legs : list Leg.t :=
  [sample_leg "wr1" rec_yards 40 (80 # 100) "G1" "BUF" "WR";
   sample_leg "rb1" rush_yards 25 (75 # 100) "G1" "KC" "RB"].

(** A raw record with an alternate passing-yards field and a null canonical one. *)
Definition sample_raw_log : gmap string JSVal :=
  <["passing_yards" := JNum 250]> (<["pass_yards" := JNull]> (<["rush_yards" := JNum 12]> ∅)).

(* ================================================================== *)
(** * Proofs *)

(** ** Stable sort *)

Section Sorting.
Context {A : Type} (cmp : A -> A -> Q).

Lemma insert_by_perm (x : A) (l : list A) : Permutation (insert_by cmp x l) (x :: l).
Proof.
  induction l as [|y l IH]; simpl; [reflexivity|].
  destruct (Qle_bool (cmp y x) 0); [|reflexivity].
  rewrite IH. apply perm_swap.
Qed.

Lemma js_sort_fold_perm (l acc : list A) :
  Permutation (fold_left (fun acc x => insert_by cmp x acc) l acc) (l ++ acc).
Proof.
  revert acc; induction l as [|x l IH]; intros acc; simpl; [reflexivity|].
  rewrite IH, insert_by_perm. symmetry. apply Permutation_middle.
Qed.

Lemma js_sort_perm (l : list A) : Permutation (js_sort cmp l) l.
Proof. unfold js_sort. rewrite js_sort_fold_perm, app_nil_r. reflexivity. Qed.

Lemma js_sort_In (l : list A) (x : A) : In x (js_sort cmp l) <-> In x l.
Proof. split; apply Permutation_in; [|symmetry]; apply js_sort_perm. Qed.

Variable R : A -> A -> Prop.
Hypothesis cmp_le : forall x y, Qle_bool (cmp y x) 0 = true -> R y x.
Hypothesis cmp_gt : forall x y, Qle_bool (cmp y x) 0 = false -> R x y.

Lemma insert_by_sorted (x : A) (l : list A) : Sorted R l -> Sorted R (insert_by cmp x l).
Proof.
  induction l as [|y l IH]; intros Hs; simpl.
  - repeat constructor.
  - destruct (Qle_bool (cmp y x) 0) eqn:E.
    + apply Sorted_inv in Hs as [Hl Hhd]. constructor; [now apply IH|].
      destruct l as [|z l']; simpl.
      * constructor. now apply cmp_le.
      * destruct (Qle_bool (cmp z x) 0); constructor;
          [now inversion Hhd | now apply cmp_le].
    + constructor; [exact Hs|]. constructor. now apply cmp_gt.
Qed.

Lemma js_sort_sorted (l : list A) : Sorted R (js_sort cmp l).
Proof.
  unfold js_sort.
  assert (H : forall acc, Sorted R acc ->
            Sorted R (fold_left (fun acc x => insert_by cmp x acc) l acc)).
  { induction l as [|x l IH]; intros acc Hacc; simpl; [exact Hacc|].
    apply IH, insert_by_sorted, Hacc. }
  apply H. constructor.
Qed.

End Sorting.

(** ** Probability engine *)

Section EngineProofs.
Variable Math_sqrt : Q -> Q.
Variable getTime : string -> Z.

Lemma threshold_loop_Some pid pname sorted mrl minP minS st ths leg :
  threshold_loop Math_sqrt pid pname sorted mrl minP minS st ths = Some leg ->
  exists pre th post,
    ths = pre ++ th :: post /\
    Forall (fun t => leg_filter minP minS (probAt Math_sqrt sorted st t) = false) pre /\
    leg_filter minP minS (probAt Math_sqrt sorted st th) = true /\
    leg = make_leg pid pname mrl st th (probAt Math_sqrt sorted st th).
Proof.
  induction ths as [|t ths IH]; simpl; [discriminate|].
  destruct (leg_filter _ _ _) eqn:E.
  - intros [= <-]. exists [], t, ths. repeat split; auto.
  - intros H. destruct (IH H) as (pre & th & post & -> & Hpre & Hth & ->).
    exists (t :: pre), th, post. repeat split; auto.
Qed.

Lemma threshold_loop_statType pid pname sorted mrl minP minS st ths leg :
  threshold_loop Math_sqrt pid pname sorted mrl minP minS st ths = Some leg ->
  Leg.statType leg = st /\ Leg.playerId leg = pid.
Proof.
  intros H. destruct (threshold_loop_Some _ _ _ _ _ _ _ _ _ H) as (? & ? & ? & _ & _ & _ & ->).
  split; reflexivity.
Qed.

Lemma stat_step_fold pid pname sorted minP minS entries acc :
  fold_left (stat_step Math_sqrt pid pname sorted minP minS) entries acc =
  acc ++ flat_map (fun e => opt_to_list (entry_leg Math_sqrt pid pname sorted minP minS e)) entries.
Proof.
  revert acc; induction entries as [|[st ths] entries IH]; intros acc; simpl.
  - now rewrite app_nil_r.
  - rewrite IH. rewrite app_assoc. f_equal.
    destruct (hasSufficientStatData sorted st 4); simpl; [|now rewrite app_nil_r].
    destruct sorted as [|mrl rest]; [now rewrite app_nil_r|].
    destruct (threshold_loop _ _ _ _ _ _ _ _ _); simpl; [reflexivity|now rewrite app_nil_r].
Qed.

Lemma entry_leg_Some pid pname sorted minP minS st ths leg :
  entry_leg Math_sqrt pid pname sorted minP minS (st, ths) = Some leg ->
  hasSufficientStatData sorted st 4 = true /\
  exists mrl rest, sorted = mrl :: rest /\
    threshold_loop Math_sqrt pid pname sorted mrl minP minS st ths = Some leg.
Proof.
  simpl. destruct (hasSufficientStatData sorted st 4); [|discriminate].
  destruct sorted as [|mrl rest]; [discriminate|]. intros H. split; [reflexivity|].
  now exists mrl, rest.
Qed.

Lemma flat_map_entry_In pid pname sorted minP minS entries leg :
  In leg (flat_map (fun e => opt_to_list (entry_leg Math_sqrt pid pname sorted minP minS e)) entries) ->
  exists ths, In (Leg.statType leg, ths) entries /\
    entry_leg Math_sqrt pid pname sorted minP minS (Leg.statType leg, ths) = Some leg.
Proof.
  intros H. apply in_flat_map in H as ([st ths] & Hin & Hl).
  destruct (entry_leg Math_sqrt pid pname sorted minP minS (st, ths)) as [l|] eqn:E; simpl in Hl; [|contradiction].
  destruct Hl as [<-|[]].
  destruct (entry_leg_Some _ _ _ _ _ _ _ _ E) as (_ & mrl & rest & _ & Ht).
  destruct (threshold_loop_statType _ _ _ _ _ _ _ _ _ Ht) as [-> _].
  exists ths. split; assumption.
Qed.

Lemma flat_map_entry_NoDup pid pname sorted minP minS entries :
  NoDup (map fst entries) ->
  NoDup (map Leg.statType
           (flat_map (fun e => opt_to_list (entry_leg Math_sqrt pid pname sorted minP minS e)) entries)).
Proof.
  induction entries as [|[st ths] entries IH]; intros Hnd; cbn [flat_map]; [constructor|].
  inversion Hnd as [|? ? Hnin Hnd']; subst.
  destruct (entry_leg Math_sqrt pid pname sorted minP minS (st, ths)) as [l|] eqn:E;
    cbn [opt_to_list app map]; [|now apply IH].
  destruct (entry_leg_Some _ _ _ _ _ _ _ _ E) as (_ & mrl & rest & _ & Ht).
  destruct (threshold_loop_statType _ _ _ _ _ _ _ _ _ Ht) as [Hst _].
  constructor; [|now apply IH].
  rewrite Hst. intros Hin. apply list_elem_of_In, in_map_iff in Hin as (l' & Hl' & Hin').
  apply flat_map_entry_In in Hin' as (ths' & Hin'' & _).
  apply Hnin, list_elem_of_In. rewrite <- Hl'. apply in_map_iff.
  now exists (Leg.statType l', ths').
Qed.

(** Every leg of [generateLegs] comes from one entry of [STAT_THRESHOLDS]. *)
Lemma generateLegs_In pid pname logs lastN minP minS minT leg :
  In leg (generateLegs Math_sqrt getTime pid pname logs lastN minP minS minT) ->
  let sorted := selectLogs getTime logs lastN in
  Leg.playerId leg = pid /\
  exists ths mrl rest,
    In (Leg.statType leg, ths) STAT_THRESHOLDS /\
    hasSufficientStatData sorted (Leg.statType leg) 4 = true /\
    sorted = mrl :: rest /\
    threshold_loop Math_sqrt pid pname sorted mrl (default DEFAULT_MIN_PROBABILITY minP)
      (default DEFAULT_MIN_SAMPLE_SIZE minS) (Leg.statType leg) ths = Some leg.
Proof.
  unfold generateLegs. cbv zeta.
  destruct (Qltb _ _); [contradiction|].
  rewrite js_sort_In, stat_step_fold, app_nil_l.
  intros H. apply flat_map_entry_In in H as (ths & Hin & E).
  destruct (entry_leg_Some _ _ _ _ _ _ _ _ E) as (Hs & mrl & rest & Hsorted & Ht).
  split; [exact (proj2 (threshold_loop_statType _ _ _ _ _ _ _ _ _ Ht))|].
  now exists ths, mrl, rest.
Qed.

Lemma calculateProbability_sufficient sorted st t a b :
  hasSufficientStatData sorted st 4 = true ->
  lastNGameValues (calculateProbability Math_sqrt sorted st t a b) = statValues st sorted /\
  sampleSize (calculateProbability Math_sqrt sorted st t a b) = length (statValues st sorted) /\
  (4 <= length (statValues st sorted))%nat.
Proof.
  unfold hasSufficientStatData, calculateProbability.
  destruct sorted as [|g gs]; [discriminate|].
  destruct (statValues st (g :: gs)) as [|v vs]; [discriminate|].
  intros H. apply Nat.leb_le in H. repeat split; assumption.
Qed.

Lemma leg_filter_sufficient sorted st t minP minS :
  hasSufficientStatData sorted st 4 = true ->
  leg_filter minP minS (probAt Math_sqrt sorted st t) =
  Qle_bool minS (Qnat (sampleSize (probAt Math_sqrt sorted st t))) &&
  Qle_bool minP (smoothedProb (probAt Math_sqrt sorted st t)).
Proof.
  intros H. unfold leg_filter, probAt.
  destruct (calculateProbability_sufficient sorted st t DEFAULT_BETA_A DEFAULT_BETA_B H)
    as (-> & _ & Hlen).
  destruct (statValues st sorted) as [|v vs]; simpl in *; [lia|].
  now rewrite andb_true_r.
Qed.

End EngineProofs.

Lemma NoDup_map_pair {A B C} (f : A -> B) (h : A -> C) (l : list A) :
  NoDup (map f l) -> NoDup (map (fun x => (h x, f x)) l).
Proof.
  induction l as [|x l IH]; simpl; intros Hnd; [constructor|].
  apply NoDup_cons in Hnd as [Hnin Hnd]. constructor; [|now apply IH].
  intros Hin. apply list_elem_of_In, in_map_iff in Hin as (y & Hy & Hiny).
  apply Hnin, list_elem_of_In, in_map_iff. exists y. split; [congruence|exact Hiny].
Qed.

Lemma STAT_THRESHOLDS_NoDup : NoDup (map fst STAT_THRESHOLDS).
Proof. vm_compute. repeat constructor; set_solver. Qed.

Lemma STAT_THRESHOLDS_ascending st ths :
  In (st, ths) STAT_THRESHOLDS -> StronglySorted Qlt ths.
Proof.
  simpl. intros [H|[H|[H|[H|[H|[]]]]]]; injection H as <- <-;
    repeat (constructor || (vm_compute; reflexivity)).
Qed.

(** ** The stat column with NaN *)

Lemma length_filter_le {A} (f : A -> bool) (l : list A) : (length (List.filter f l) <= length l)%nat.
Proof. induction l as [|x l IH]; simpl; [lia|]. destruct (f x); simpl; lia. Qed.







(** ** Claims about the probability engine *)


(** C3. [generateLegs] never emits two legs for the same (playerId, statType)
    pair: per statistic the thresholds are ascending, and the only leg is the
    one for the first (lowest) threshold whose sample size reaches
    [minSampleSize] and whose smoothed probability reaches [minProbability];
    every lower threshold fails that test. *)
Theorem generateLegs_lowest_threshold_per_stat (Math_sqrt : Q -> Q) (getTime : string -> Z)
    pid pname logs lastN minP minS minT :
  let legs := generateLegs Math_sqrt getTime pid pname logs lastN minP minS minT in
  let sortedLogs := selectLogs getTime logs lastN in
  let passes st t :=
    let r := calculateProbability Math_sqrt sortedLogs st t DEFAULT_BETA_A DEFAULT_BETA_B in
    Qle_bool (default DEFAULT_MIN_SAMPLE_SIZE minS) (Qnat (sampleSize r)) &&
    Qle_bool (default DEFAULT_MIN_PROBABILITY minP) (smoothedProb r) in
  NoDup (map (fun leg => (Leg.playerId leg, Leg.statType leg)) legs) /\
  (forall leg, In leg legs ->
     exists thresholds pre post,
       In (Leg.statType leg, thresholds) STAT_THRESHOLDS /\
       StronglySorted Qlt thresholds /\
       thresholds = pre ++ Leg.threshold leg :: post /\
       Forall (fun t => passes (Leg.statType leg) t = false) pre /\
       passes (Leg.statType leg) (Leg.threshold leg) = true).
Proof.
  cbv zeta. split.
  - apply NoDup_map_pair. unfold generateLegs. cbv zeta.
    destruct (Qltb _ _); [constructor|].
    rewrite (Permutation_map Leg.statType (js_sort_perm leg_cmp _)).
    rewrite stat_step_fold, app_nil_l.
    apply flat_map_entry_NoDup, STAT_THRESHOLDS_NoDup.
  - intros leg Hin.
    destruct (generateLegs_In Math_sqrt getTime _ _ _ _ _ _ _ _ Hin)
      as (_ & ths & mrl & rest & Hths & Hsuff & _ & Ht).
    destruct (threshold_loop_Some Math_sqrt _ _ _ _ _ _ _ _ _ Ht)
      as (pre & th & post & Hsplit & Hpre & Hth & Hleg).
    assert (Hthr : Leg.threshold leg = th) by (rewrite Hleg; reflexivity).
    rewrite Hthr.
    exists ths, pre, post. split; [exact Hths|]. split; [exact (STAT_THRESHOLDS_ascending _ _ Hths)|].
    split; [exact Hsplit|]. split.
    + eapply Forall_impl; [exact Hpre|]. intros t Ht'. cbv beta in Ht'.
      rewrite leg_filter_sufficient in Ht' by exact Hsuff. exact Ht'.
    + rewrite leg_filter_sufficient in Hth by exact Hsuff. exact Hth.
Qed.

(** The shape of [calculateAverageTouchesPerGame]: a quarterback scores 100,
    a position other than QB, RB, WR and TE scores 0. *)
Lemma calculateAverageTouchesPerGame_positions (log : GameLog.t) (rest : list GameLog.t) :
  (upper_is (GameLog.position log) "QB" = true ->
   calculateAverageTouchesPerGame (log :: rest) = 100) /\
  (upper_is (GameLog.position log) "QB" = false ->
   upper_is (GameLog.position log) "RB" = false ->
   upper_is (GameLog.position log) "WR" = false ->
   upper_is (GameLog.position log) "TE" = false ->
   calculateAverageTouchesPerGame (log :: rest) = 0).
Proof.
  unfold calculateAverageTouchesPerGame. split; intros HQB; rewrite HQB; [reflexivity|].
  intros HRB HWR HTE.
  assert (Ht : forall x, touches_of (GameLog.position log) x = 0)
    by (intros x; unfold touches_of; now rewrite HRB, HWR, HTE).
  assert (Hloop : forall l acc,
    fold_left (fun acc log0 =>
       let '(totalTouches, gamesWithData) := acc in
       let touches := touches_of (GameLog.position log) log0 in
       if Qltb 0 touches then (totalTouches + touches, S gamesWithData)
       else (totalTouches, gamesWithData)) l acc = acc).
  { induction l as [|x l IH]; intros [tot g]; [reflexivity|].
    cbn [fold_left]. rewrite Ht. exact (IH (tot, g)). }
  unfold touches_loop. rewrite Hloop. reflexivity.
Qed.

Lemma touches_loop_spec (position : option string) (l : list GameLog.t) (tot : Q) (g : nat) :
  fold_left
    (fun acc log =>
       let '(totalTouches, gamesWithData) := acc in
       let touches := touches_of position log in
       if Qltb 0 touches then (totalTouches + touches, S gamesWithData)
       else (totalTouches, gamesWithData)) l (tot, g) =
  (fold_left (fun sum v => sum + v) (List.filter (fun t => Qltb 0 t) (map (touches_of position) l)) tot,
   (g + length (List.filter (fun t => Qltb 0 t) (map (touches_of position) l)))%nat).
Proof.
  revert tot g; induction l as [|log l IH]; intros tot g; simpl; [f_equal; lia|].
  destruct (Qltb 0 (touches_of position log)); simpl; rewrite IH; [|reflexivity].
  f_equal. lia.
Qed.

(** C6 (amended). [generateLegs] returns no leg whenever
    [calculateAverageTouchesPerGame] of the selected logs is below
    [minTouchesPerGame] (default 5), and passes the filter otherwise. That
    average is 0 on no log and takes the position of the most recent
    selected log: a QB scores a flat 100 (so is filtered only when the
    minimum exceeds 100); otherwise it is the sum of the positive per-game
    touches divided by the number of games with positive touches (0 when
    there is none), where an RB's touches are rush attempts (or
    round(rush_yards / 4.5) without attempts) plus receptions, a WR's or
    TE's are targets (or receptions), and any other position has 0 touches
    in every game, so its legs are always filtered out under a positive
    minimum. *)
Theorem generateLegs_touches_filter (Math_sqrt : Q -> Q) (getTime : string -> Z)
    pid pname logs lastN minP minS minT :
  let sorted := selectLogs getTime logs lastN in
  let minTouches := default DEFAULT_MIN_TOUCHES_PER_GAME minT in
  let avg := calculateAverageTouchesPerGame sorted in
  (avg < minTouches -> generateLegs Math_sqrt getTime pid pname logs lastN minP minS minT = []) /\
  (~ avg < minTouches ->
   generateLegs Math_sqrt getTime pid pname logs lastN minP minS minT =
   js_sort leg_cmp (fold_left (stat_step Math_sqrt pid pname sorted
                                 (default DEFAULT_MIN_PROBABILITY minP)
                                 (default DEFAULT_MIN_SAMPLE_SIZE minS))
                      STAT_THRESHOLDS [])) /\
  (sorted = [] -> avg = 0) /\
  (forall first rest, sorted = first :: rest ->
     let position := GameLog.position first in
     (upper_is position "QB" = true -> avg = 100) /\
     (upper_is position "QB" = false ->
        let perGame := List.filter (fun t => Qltb 0 t) (map (touches_of position) sorted) in
        avg = match perGame with
              | [] => 0
              | _ => sum_values perGame / Qnat (length perGame)
              end) /\
     (forall log : GameLog.t,
        (upper_is position "RB" = true ->
         touches_of position log =
           (match GameLog.rush_attempts log with
            | Some a => a
            | None =>
                match GameLog.rush_yards log with
                | Some y => inject_Z (Math_round (y / (9 # 2)))
                | None => 0
                end
            end) + or0 (GameLog.receptions log)) /\
        (upper_is position "RB" = false ->
         upper_is position "WR" = true \/ upper_is position "TE" = true ->
         touches_of position log =
           match GameLog.targets log with
           | Some t => t
           | None => or0 (GameLog.receptions log)
           end) /\
        (upper_is position "RB" = false -> upper_is position "WR" = false ->
         upper_is position "TE" = false -> touches_of position log = 0)) /\
     (upper_is position "QB" = false -> upper_is position "RB" = false ->
      upper_is position "WR" = false -> upper_is position "TE" = false ->
      0 < minTouches ->
      generateLegs Math_sqrt getTime pid pname logs lastN minP minS minT = [])).
Proof.
  cbv zeta.
  assert (Hguard : forall q, q < default DEFAULT_MIN_TOUCHES_PER_GAME minT ->
            calculateAverageTouchesPerGame (selectLogs getTime logs lastN) = q ->
            generateLegs Math_sqrt getTime pid pname logs lastN minP minS minT = []).
  { intros q Hlt Hq. unfold generateLegs. cbv zeta. rewrite Hq. unfold Qltb.
    destruct (Qle_bool _ q) eqn:E; [|reflexivity].
    apply Qle_bool_iff in E. exfalso. exact (Qlt_not_le _ _ Hlt E). }
  split; [intros Hlt; exact (Hguard _ Hlt eq_refl)|].
  split.
  { intros Hnlt. unfold generateLegs. cbv zeta. unfold Qltb.
    destruct (Qle_bool _ (calculateAverageTouchesPerGame _)) eqn:E; [reflexivity|].
    exfalso. apply Hnlt. apply Bool.not_true_iff_false in E. rewrite Qle_bool_iff in E.
    apply Qnot_le_lt, E. }
  split; [intros ->; reflexivity|].
  intros first rest Hs.
  split; [intros HQB; rewrite Hs; exact (proj1 (calculateAverageTouchesPerGame_positions first rest) HQB)|].
  split.
  { intros HQB. rewrite Hs. unfold calculateAverageTouchesPerGame. rewrite HQB.
    unfold touches_loop. rewrite touches_loop_spec.
    destruct (List.filter _ _) as [|t ts]; reflexivity. }
  split.
  { intros log. unfold touches_of. split; [intros HRB; rewrite HRB; reflexivity|].
    split; [intros HRB [HWR|HTE]; rewrite HRB; [rewrite HWR|rewrite HTE, orb_true_r]; reflexivity|].
    intros HRB HWR HTE. rewrite HRB, HWR, HTE. reflexivity. }
  intros HQB HRB HWR HTE Hpos. apply (Hguard 0 Hpos). rewrite Hs.
  exact (proj2 (calculateAverageTouchesPerGame_positions first rest) HQB HRB HWR HTE).
Qed.

(* ------------------------------------------------------------------ *)
(** ** Witnesses and counterexamples for the probability engine *)



Lemma generateLegs_lowest_threshold_per_stat_witness :
  In wr_leg0 wr_legs /\
  exists thresholds pre post,
    In (Leg.statType wr_leg0, thresholds) STAT_THRESHOLDS /\
    StronglySorted Qlt thresholds /\
    thresholds = pre ++ Leg.threshold wr_leg0 :: post /\
    Forall (fun t =>
      (let r := calculateProbability sample_sqrt (selectLogs sample_getTime wr_logs None)
                  (Leg.statType wr_leg0) t DEFAULT_BETA_A DEFAULT_BETA_B in
       Qle_bool (default DEFAULT_MIN_SAMPLE_SIZE None) (Qnat (sampleSize r)) &&
       Qle_bool (default DEFAULT_MIN_PROBABILITY (Some (60 # 100))) (smoothedProb r)) = false) pre /\
    (let r := calculateProbability sample_sqrt (selectLogs sample_getTime wr_logs None)
                (Leg.statType wr_leg0) (Leg.threshold wr_leg0) DEFAULT_BETA_A DEFAULT_BETA_B in
     Qle_bool (default DEFAULT_MIN_SAMPLE_SIZE None) (Qnat (sampleSize r)) &&
     Qle_bool (default DEFAULT_MIN_PROBABILITY (Some (60 # 100))) (smoothedProb r)) = true.
Proof.
  assert (H : In wr_leg0 wr_legs) by (vm_compute; left; reflexivity).
  split; [exact H|].
  exact (proj2 (generateLegs_lowest_threshold_per_stat sample_sqrt sample_getTime
                  "wr1" None wr_logs None (Some (60 # 100)) None None) wr_leg0 H).
Defined.

Lemma generateLegs_touches_filter_witness :
  let first := hd (sample_log "" "" "" 0 "" "" None None None None None)
                 (selectLogs sample_getTime k_logs None) in
  let rest := tl (selectLogs sample_getTime k_logs None) in
  calculateAverageTouchesPerGame (selectLogs sample_getTime k_logs None) <
    default DEFAULT_MIN_TOUCHES_PER_GAME None /\
  generateLegs sample_sqrt sample_getTime "k1" None k_logs None None None None = [] /\
  selectLogs sample_getTime k_logs None = first :: rest /\
  upper_is (GameLog.position first) "QB" = false /\
  upper_is (GameLog.position first) "RB" = false /\
  upper_is (GameLog.position first) "WR" = false /\
  upper_is (GameLog.position first) "TE" = false /\
  generateLegs sample_sqrt sample_getTime "k1" None k_logs None (Some 0) (Some 4) (Some 1) = [].
Proof.
  cbv zeta.
  assert (H : calculateAverageTouchesPerGame (selectLogs sample_getTime k_logs None) <
                default DEFAULT_MIN_TOUCHES_PER_GAME None) by (vm_compute; reflexivity).
  assert (Hs : selectLogs sample_getTime k_logs None =
               hd (sample_log "" "" "" 0 "" "" None None None None None)
                 (selectLogs sample_getTime k_logs None) ::
               tl (selectLogs sample_getTime k_logs None)) by (vm_compute; reflexivity).
  assert (HQB : upper_is (GameLog.position (hd (sample_log "" "" "" 0 "" "" None None None None None)
                 (selectLogs sample_getTime k_logs None))) "QB" = false) by (vm_compute; reflexivity).
  assert (HRB : upper_is (GameLog.position (hd (sample_log "" "" "" 0 "" "" None None None None None)
                 (selectLogs sample_getTime k_logs None))) "RB" = false) by (vm_compute; reflexivity).
  assert (HWR : upper_is (GameLog.position (hd (sample_log "" "" "" 0 "" "" None None None None None)
                 (selectLogs sample_getTime k_logs None))) "WR" = false) by (vm_compute; reflexivity).
  assert (HTE : upper_is (GameLog.position (hd (sample_log "" "" "" 0 "" "" None None None None None)
                 (selectLogs sample_getTime k_logs None))) "TE" = false) by (vm_compute; reflexivity).
  assert (Hpos : 0 < default DEFAULT_MIN_TOUCHES_PER_GAME (Some 1)) by (vm_compute; reflexivity).
  split; [exact H|].
  split; [exact (proj1 (generateLegs_touches_filter sample_sqrt sample_getTime
                          "k1" None k_logs None None None None) H)|].
  split; [exact Hs|]. split; [exact HQB|]. split; [exact HRB|]. split; [exact HWR|].
  split; [exact HTE|].
  exact (proj2 (proj2 (proj2 ((proj2 (proj2 (proj2
           (generateLegs_touches_filter sample_sqrt sample_getTime
              "k1" None k_logs None (Some 0) (Some 4) (Some 1))))) _ _ Hs)))
           HQB HRB HWR HTE Hpos).
Defined.

(** C6 fails as stated. The running back of [rb_logs] has rush attempts plus
    receptions of 12, 0, 0, 0 over the four selected games (3 per game, below
    the default minimum of 5), yet gets legs: the code averages over the one
    game with positive touches. The kicker of [k_logs], a position with no
    touches proxy, is not exempt: the default filter removes all its legs,
    which it gets when the minimum is 0. *)
Lemma generateLegs_touches_counterexample :
  map (fun l => or0 (GameLog.rush_attempts l) + or0 (GameLog.receptions l))
    (selectLogs sample_getTime rb_logs None) = [12; 0; 0; 0] /\
  generateLegs sample_sqrt sample_getTime "rb1" None rb_logs None (Some 0) (Some 4) None <> [] /\
  generateLegs sample_sqrt sample_getTime "k1" None k_logs None (Some 0) (Some 4) None = [] /\
  generateLegs sample_sqrt sample_getTime "k1" None k_logs None (Some 0) (Some 4) (Some 0) <> [].
Proof. vm_compute. repeat split; discriminate. Qed.

(** ** Parlay combination *)

Lemma size_list_to_set_le (l : list string) : (size (list_to_set l : gset string) <= length l)%nat.
Proof.
  induction l as [|x l IH]; [rewrite list_to_set_nil, size_empty; simpl; lia|].
  rewrite list_to_set_cons, size_union_alt, size_singleton.
  pose proof (subseteq_size (list_to_set l ∖ {[x]} : gset string) (list_to_set l)
                ltac:(set_solver)).
  simpl. lia.
Qed.

(** [new Set(ids).size === ids.length] means the ids are distinct. *)
Lemma NoDup_of_set_size (l : list string) :
  size (list_to_set l : gset string) = length l -> NoDup l.
Proof.
  induction l as [|x l IH]; intros Hs; [constructor|].
  rewrite list_to_set_cons in Hs. simpl in Hs.
  destruct (decide (x ∈ l)) as [Hin|Hnin].
  - rewrite subseteq_union_1_L in Hs
      by (apply singleton_subseteq_l, elem_of_list_to_set, Hin).
    pose proof (size_list_to_set_le l). lia.
  - rewrite size_union in Hs
      by (apply disjoint_singleton_l; rewrite elem_of_list_to_set; exact Hnin).
    rewrite size_singleton in Hs. constructor; [exact Hnin|]. apply IH. lia.
Qed.

Lemma map_get_set (k k' : string) (v : nat) (m : list (string * nat)) :
  map_get k' (map_set k v m) = if String.eqb k' k then Some v else map_get k' m.
Proof.
  induction m as [|[k0 v0] m IH]; simpl.
  - reflexivity.
  - destruct (String.eqb_spec k k0) as [->|Hne]; simpl.
    + destruct (String.eqb k' k0); reflexivity.
    + rewrite IH. destruct (String.eqb_spec k' k0) as [->|]; [|reflexivity].
      destruct (String.eqb_spec k0 k); [congruence|reflexivity].
Qed.

Lemma game_count_check_NoDup (legs : list Leg.t) (m : list (string * nat)) :
  (forall k c, map_get k m = Some c -> (1 <= c)%nat) ->
  game_count_check legs m = true ->
  NoDup (map gameKey legs) /\ (forall leg, In leg legs -> map_get (gameKey leg) m = None).
Proof.
  revert m; induction legs as [|leg rest IH]; intros m Hm Hc; simpl.
  - split; [constructor|contradiction].
  - simpl in Hc.
    destruct (map_get (gameKey leg) m) as [c|] eqn:Eg.
    { pose proof (Hm _ _ Eg). destruct (Nat.ltb_spec 1 (c + 1)); [discriminate|lia]. }
    simpl in Hc.
    destruct (IH (map_set (gameKey leg) 1 m)) as [Hnd Hnone]; [|exact Hc|].
    { intros k c. rewrite map_get_set. destruct (String.eqb k (gameKey leg)).
      - intros [= <-]. lia.
      - apply Hm. }
    split.
    + constructor; [|exact Hnd].
      intros Hin. apply list_elem_of_In, in_map_iff in Hin as (l' & Hk & Hl').
      specialize (Hnone l' Hl'). rewrite map_get_set, Hk, String.eqb_refl in Hnone.
      discriminate.
    + intros l' [<-|Hl']; [exact Eg|].
      specialize (Hnone l' Hl'). rewrite map_get_set in Hnone.
      destruct (String.eqb _ _); [discriminate|exact Hnone].
Qed.

Lemma generateCombinations_In legCount asg ast size rest current p :
  In p (generateCombinations legCount asg ast size rest current) ->
  exists c, p = mkParlayFrom c /\ isValidParlay c legCount asg ast = true.
Proof.
  revert current; induction rest as [|x rest IH]; intros current; simpl.
  - destruct (Qeq_bool _ _); [|contradiction].
    destruct (isValidParlay current legCount asg ast) eqn:E; [|contradiction].
    intros [<-|[]]. now exists current.
  - destruct (Qeq_bool _ _).
    + destruct (isValidParlay current legCount asg ast) eqn:E; [|contradiction].
      intros [<-|[]]. now exists current.
    + intros Hin. apply in_app_or in Hin as [Hin|Hin]; eapply IH; exact Hin.
Qed.

Lemma generateParlays_In candidateLegs options p :
  In p (generateParlays candidateLegs options) ->
  exists c, p = mkParlayFrom c /\
    isValidParlay c (effectiveLegCount options)
      (if default false (ParlayOptions.singleGame options) then true
       else default false (ParlayOptions.allowSameGame options))
      (default false (ParlayOptions.allowSameTeamStack options)) = true.
Proof.
  unfold generateParlays. cbv zeta. intros Hin.
  apply in_map_iff in Hin as ([p' a] & Hp & Hin). simpl in Hp. subst p'.
  apply js_sort_In, in_map_iff in Hin as (p' & Hp' & Hin). injection Hp' as -> _.
  eapply generateCombinations_In. exact Hin.
Qed.

Lemma mkParlayFrom_legs c : Parlay.legs (mkParlayFrom c) = c.
Proof. unfold mkParlayFrom. destruct (calculateParlayPenalties c). reflexivity. Qed.

Lemma isValidParlay_true legs legCount asg ast :
  isValidParlay legs legCount asg ast = true ->
  Qnat (length legs) == legCount /\
  NoDup (map Leg.playerId legs) /\
  (asg = false -> NoDup (map gameKey legs)).
Proof.
  unfold isValidParlay.
  destruct (Qeq_bool (Qnat (length legs)) legCount) eqn:E1; [|discriminate]. simpl.
  destruct (Nat.eqb_spec (size (list_to_set (map Leg.playerId legs) : gset string))
                         (length (map Leg.playerId legs))) as [E2|]; [|discriminate]. simpl.
  intros H. split; [now apply Qeq_bool_iff|]. split; [now apply NoDup_of_set_size|].
  intros ->. simpl in H.
  destruct (game_count_check legs []) eqn:E3; [|discriminate].
  now apply (game_count_check_NoDup legs []).
Qed.

Lemma NoDup_map_nth_error {A} (f : A -> string) (l : list A) i j a b :
  NoDup (map f l) -> nth_error l i = Some a -> nth_error l j = Some b -> f a = f b -> i = j.
Proof.
  intros Hnd Hi Hj Hf.
  apply NoDup_ListNoDup in Hnd.
  apply (proj1 (NoDup_nth_error (map f l)) Hnd).
  - rewrite length_map. apply nth_error_Some. congruence.
  - rewrite !nth_error_map, Hi, Hj. simpl. congruence.
Qed.

Ltac qle_bool_hyps :=
  repeat match goal with
  | H : Qle_bool _ _ = true |- _ => apply Qle_bool_iff in H
  | H : Qle_bool _ _ = false |- _ =>
      apply Bool.not_true_iff_false in H; rewrite Qle_bool_iff in H; apply Qnot_le_lt in H
  end.

Lemma js_max_min_bounds (r : Q) :
  2 <= js_max 2 (js_min 8 r) <= 8 /\
  (2 <= r <= 8 -> js_max 2 (js_min 8 r) == r) /\
  (r < 2 -> js_max 2 (js_min 8 r) == 2) /\
  (8 < r -> js_max 2 (js_min 8 r) == 8).
Proof.
  unfold js_max, js_min.
  destruct (Qle_bool 8 r) eqn:E1;
  [destruct (Qle_bool 8 2) eqn:E2|destruct (Qle_bool r 2) eqn:E2];
  qle_bool_hyps; repeat split; intros; lra.
Qed.

(** ** C4 *)

(** C4: every parlay returned by [generateParlays] has legs of pairwise
    distinct players, and exactly [effectiveLegCount options] of them;
    that count is the requested [legCount] (default 3) clamped to [2,8]
    with no error: it equals the request inside [2,8], 2 below, 8 above. *)
Theorem generateParlays_distinct_players_and_leg_count candidateLegs options p :
  In p (generateParlays candidateLegs options) ->
  NoDup (map Leg.playerId (Parlay.legs p)) /\
  Qnat (length (Parlay.legs p)) == effectiveLegCount options /\
  (let requested := default 3 (ParlayOptions.legCount options) in
   2 <= effectiveLegCount options <= 8 /\
   (2 <= requested <= 8 -> effectiveLegCount options == requested) /\
   (requested < 2 -> effectiveLegCount options == 2) /\
   (8 < requested -> effectiveLegCount options == 8)).
Proof.
  intros Hin. destruct (generateParlays_In _ _ _ Hin) as (c & -> & Hv).
  rewrite mkParlayFrom_legs.
  destruct (isValidParlay_true _ _ _ _ Hv) as (Hlen & Hnd & _).
  split; [exact Hnd|]. split; [exact Hlen|].
  apply js_max_min_bounds.
Qed.

Lemma generateParlays_distinct_players_and_leg_count_witness :
  In three_parlay0 three_parlays /\
  NoDup (map Leg.playerId (Parlay.legs three_parlay0)) /\
  Qnat (length (Parlay.legs three_parlay0)) == effectiveLegCount two_leg_options.
Proof.
  assert (Hin : In three_parlay0 three_parlays) by (vm_compute; left; reflexivity).
  destruct (generateParlays_distinct_players_and_leg_count three_legs two_leg_options
              three_parlay0 Hin) as (H1 & H2 & _).
  exact (conj Hin (conj H1 H2)).
Defined.

(** ** C5 *)

(** C5: with [singleGame] and [allowSameGame] both false (or absent), the
    game keys ([gameId || gameDate || 'unknown']) of the legs of every
    returned parlay are pairwise distinct; in particular two different
    legs never carry the same non-empty [gameId]. *)
Theorem generateParlays_distinct_games candidateLegs options p :
  default false (ParlayOptions.singleGame options) = false ->
  default false (ParlayOptions.allowSameGame options) = false ->
  In p (generateParlays candidateLegs options) ->
  NoDup (map gameKey (Parlay.legs p)) /\
  (forall i j leg1 leg2 g,
     nth_error (Parlay.legs p) i = Some leg1 -> nth_error (Parlay.legs p) j = Some leg2 ->
     Leg.gameId leg1 = Some g -> Leg.gameId leg2 = Some g -> g <> "" -> i = j).
Proof.
  intros Hsg Hasg Hin. destruct (generateParlays_In _ _ _ Hin) as (c & -> & Hv).
  rewrite Hsg, Hasg in Hv. rewrite mkParlayFrom_legs.
  destruct (isValidParlay_true _ _ _ _ Hv) as (_ & _ & Hg).
  specialize (Hg eq_refl). split; [exact Hg|].
  intros i j leg1 leg2 g Hi Hj Hg1 Hg2 Hne.
  apply (NoDup_map_nth_error gameKey c i j leg1 leg2 Hg Hi Hj).
  unfold gameKey, or_str. rewrite Hg1, Hg2.
  destruct (String.eqb_spec g ""); [contradiction|reflexivity].
Qed.

Lemma generateParlays_distinct_games_witness :
  In three_parlay0 three_parlays /\ NoDup (map gameKey (Parlay.legs three_parlay0)).
Proof.
  assert (Hin : In three_parlay0 three_parlays) by (vm_compute; left; reflexivity).
  split; [exact Hin|].
  exact (proj1 (generateParlays_distinct_games three_legs two_leg_options three_parlay0
                  eq_refl eq_refl Hin)).
Defined.

(** ** Correlation penalties *)

(** Legs of [legs] with game key [k]. *)
Definition game_count (k : string) (legs : list Leg.t) : nat :=
  length (List.filter (fun l => String.eqb (gameKey l) k) legs).

(** The multiplier and the penalties the same-game loop contributes for the
    game entries [shared]. *)
Definition same_game_factor (e : string * nat) : Q := (9 # 10) ^ Z.of_nat (snd e - 1).

Lemma map_get_In (k : string) (c : nat) (m : list (string * nat)) :
  map_get k m = Some c -> In (k, c) m.
Proof.
  induction m as [|[k' v] m IH]; simpl; [discriminate|].
  destruct (String.eqb_spec k k') as [->|]; [intros [= ->]; left; reflexivity|].
  intros H. right. exact (IH H).
Qed.

Lemma In_map_get (k : string) (c : nat) (m : list (string * nat)) :
  NoDup (map fst m) -> In (k, c) m -> map_get k m = Some c.
Proof.
  induction m as [|[k' v] m IH]; simpl; [contradiction|].
  intros Hnd [[= -> ->]|Hin]; [rewrite String.eqb_refl; reflexivity|].
  apply NoDup_cons in Hnd as [Hk' Hnd].
  destruct (String.eqb_spec k k') as [->|]; [|exact (IH Hnd Hin)].
  exfalso. apply Hk', list_elem_of_In, in_map_iff. exists (k', c). split; [reflexivity|exact Hin].
Qed.

Lemma map_set_keys (k x : string) (v : nat) (m : list (string * nat)) :
  In x (map fst (map_set k v m)) -> x = k \/ In x (map fst m).
Proof.
  induction m as [|[k' v'] m IH]; simpl.
  - intros [<-|[]]. left. reflexivity.
  - destruct (String.eqb_spec k k'); simpl.
    + intros [<-|H]; right; [left; reflexivity|right; exact H].
    + intros [<-|H]; [right; left; reflexivity|].
      destruct (IH H) as [->|H']; [left; reflexivity|right; right; exact H'].
Qed.

Lemma map_set_NoDup (k : string) (v : nat) (m : list (string * nat)) :
  NoDup (map fst m) -> NoDup (map fst (map_set k v m)).
Proof.
  induction m as [|[k' v'] m IH]; simpl; intros Hnd.
  - constructor; [set_solver|constructor].
  - apply NoDup_cons in Hnd as [Hk' Hnd].
    destruct (String.eqb_spec k k'); simpl; constructor; try assumption.
    + intros Hin. apply list_elem_of_In in Hin.
      destruct (map_set_keys _ _ _ _ Hin) as [->|H]; [congruence|].
      apply Hk', list_elem_of_In, H.
    + apply IH, Hnd.
Qed.

Lemma gameCounts_fold_get (k : string) (legs : list Leg.t) (m : list (string * nat)) :
  map_get k (fold_left (fun m leg => map_incr (gameKey leg) m) legs m) =
  match map_get k m with
  | Some c => Some (c + game_count k legs)%nat
  | None => if Nat.eqb (game_count k legs) 0 then None else Some (game_count k legs)
  end.
Proof.
  revert m; induction legs as [|leg legs IH]; intros m; simpl.
  - destruct (map_get k m); [rewrite Nat.add_0_r|]; reflexivity.
  - rewrite IH. unfold map_incr, game_count. rewrite map_get_set. simpl.
    destruct (String.eqb_spec k (gameKey leg)) as [->|Hne].
    + rewrite String.eqb_refl. simpl.
      destruct (map_get (gameKey leg) m); f_equal; lia.
    + destruct (String.eqb_spec (gameKey leg) k); [congruence|]. reflexivity.
Qed.

Lemma gameCounts_fold_NoDup (legs : list Leg.t) (m : list (string * nat)) :
  NoDup (map fst m) -> NoDup (map fst (fold_left (fun m leg => map_incr (gameKey leg) m) legs m)).
Proof.
  revert m; induction legs as [|leg legs IH]; intros m Hm; simpl; [exact Hm|].
  apply IH. unfold map_incr. apply map_set_NoDup, Hm.
Qed.

(** [gameCounts] holds each game key of the legs once, with its number of legs. *)
Lemma gameCounts_of_spec (legs : list Leg.t) :
  NoDup (map fst (gameCounts_of legs)) /\
  (forall k c, In (k, c) (gameCounts_of legs) -> c = game_count k legs /\ (0 < c)%nat) /\
  (forall leg, In leg legs -> In (gameKey leg, game_count (gameKey leg) legs) (gameCounts_of legs)).
Proof.
  assert (Hnd : NoDup (map fst (gameCounts_of legs)))
    by (apply gameCounts_fold_NoDup; constructor).
  pose proof (fun k => gameCounts_fold_get k legs []) as Hget. simpl in Hget.
  split; [exact Hnd|]. split.
  - intros k c Hin. pose proof (In_map_get _ _ _ Hnd Hin) as E.
    unfold gameCounts_of in E. rewrite Hget in E.
    destruct (Nat.eqb_spec (game_count k legs) 0); [discriminate|].
    injection E as <-. split; [reflexivity|lia].
  - intros leg Hleg. apply map_get_In. unfold gameCounts_of. rewrite Hget.
    destruct (Nat.eqb_spec (game_count (gameKey leg) legs) 0) as [E|]; [|reflexivity].
    exfalso. unfold game_count in E. apply length_zero_iff_nil in E.
    assert (Hf : In leg (List.filter (fun l => String.eqb (gameKey l) (gameKey leg)) legs))
      by (apply filter_In; split; [exact Hleg|apply String.eqb_refl]).
    rewrite E in Hf. contradiction.
Qed.

Lemma same_game_fold (gc : list (string * nat)) (m : Q) (ps : list PenaltyBreakdown) :
  let shared := List.filter (fun e => (1 <? snd e)%nat) gc in
  fst (fold_left same_game_step gc (m, ps)) ==
    m * fold_right (fun e acc => same_game_factor e * acc) 1 shared /\
  exists added,
    snd (fold_left same_game_step gc (m, ps)) = ps ++ added /\
    map ptype added = map (fun _ => "same_game") shared /\
    map amount added = map (fun e => 1 - same_game_factor e) shared.
Proof.
  revert m ps; induction gc as [|[k c] gc IH]; intros m ps; simpl.
  - split; [ring|]. exists []. rewrite app_nil_r. repeat split.
  - destruct (Nat.ltb_spec 1 c); simpl.
    + destruct (IH (m * (9 # 10) ^ Z.of_nat (c - 1))
                   (ps ++ [mkPenalty "same_game" (1 - (9 # 10) ^ Z.of_nat (c - 1))
                     (pretty c +:+ " legs from same game (" +:+ k +:+ ") - " +:+
                      toFixed1 ((1 - (9 # 10) ^ Z.of_nat (c - 1)) * 100) +:+ "% penalty")]))
        as [Hm (added & Hs & Ht & Ha)].
      split; [rewrite Hm; unfold same_game_factor; simpl; ring|].
      eexists. split; [rewrite Hs, <- app_assoc; reflexivity|].
      simpl. rewrite Ht, Ha. split; reflexivity.
    + apply IH.
Qed.

Lemma Qpower_unit_bound (q : Q) (n : nat) : 0 < q <= 1 -> 0 < q ^ Z.of_nat n <= 1.
Proof.
  intros Hq. induction n as [|n IH]; [simpl; lra|].
  rewrite Nat2Z.inj_succ, <- Z.add_1_r, Qpower_plus by lra.
  change (q ^ 1) with q. destruct IH as [IH1 IH2].
  split; [apply Qmult_lt_0_compat; lra|].
  apply Qle_trans with (q ^ Z.of_nat n * 1); [apply Qmult_le_l; lra|lra].
Qed.

(** A multiplier fold whose every step keeps the multiplier or scales it by
    a factor in (0, 1] stays in (0, 1]. *)
Lemma fold_multiplier_unit {A} (step : Q * list PenaltyBreakdown -> A -> Q * list PenaltyBreakdown)
    (Hstep : forall acc e, fst (step acc e) == fst acc \/
                           exists f, 0 < f <= 1 /\ fst (step acc e) == fst acc * f)
    (l : list A) (acc : Q * list PenaltyBreakdown) :
  0 < fst acc <= 1 -> 0 < fst (fold_left step l acc) <= 1.
Proof.
  revert acc; induction l as [|e l IH]; intros acc Hacc; simpl; [exact Hacc|].
  apply IH. destruct (Hstep acc e) as [E|(f & Hf & E)]; rewrite E; [exact Hacc|].
  split; [apply Qmult_lt_0_compat; lra|].
  apply Qle_trans with (fst acc * 1); [apply Qmult_le_compat_nonneg; lra|lra].
Qed.

Lemma same_game_step_unit acc e :
  fst (same_game_step acc e) == fst acc \/
  exists f, 0 < f <= 1 /\ fst (same_game_step acc e) == fst acc * f.
Proof.
  destruct acc as [m ps], e as [k c]. unfold same_game_step.
  destruct (1 <? c)%nat; [right|left; reflexivity].
  exists ((9 # 10) ^ Z.of_nat (c - 1)). split; [apply Qpower_unit_bound; lra|reflexivity].
Qed.

Lemma same_team_step_unit acc e :
  fst (same_team_step acc e) == fst acc \/
  exists f, 0 < f <= 1 /\ fst (same_team_step acc e) == fst acc * f.
Proof.
  destruct acc as [m ps], e as [k c]. unfold same_team_step.
  destruct (1 <? c)%nat; [right|left; reflexivity].
  exists ((95 # 100) ^ Z.of_nat (c - 1)). split; [apply Qpower_unit_bound; lra|reflexivity].
Qed.

Lemma qb_wr_step_unit acc e :
  fst (qb_wr_step acc e) == fst acc \/
  exists f, 0 < f <= 1 /\ fst (qb_wr_step acc e) == fst acc * f.
Proof.
  destruct acc as [m ps], e as [k ls]. unfold qb_wr_step.
  destruct (_ && _); [right|left; reflexivity].
  exists (85 # 100). split; [lra|reflexivity].
Qed.

Lemma calculateParlayProbability_unit (legs : list Leg.t) :
  Forall (fun l => 0 <= Leg.smoothedProb l <= 1) legs ->
  0 <= calculateParlayProbability legs <= 1.
Proof.
  intros Hlegs. unfold calculateParlayProbability.
  assert (H : forall acc, 0 <= acc <= 1 ->
            0 <= fold_left (fun product leg => product * Leg.smoothedProb leg) legs acc <= 1).
  { induction Hlegs as [|leg legs Hleg _ IH]; intros acc Hacc; simpl; [exact Hacc|].
    apply IH. split; [apply Qmult_le_0_compat; lra|].
    apply Qle_trans with (acc * 1); [apply Qmult_le_compat_nonneg; lra|lra]. }
  apply H. lra.
Qed.

(** ** C10 *)

(** C10: when every leg's smoothed probability lies in [0,1], the adjusted
    probability of [calculateParlayPenalties] is [max(base * m, 0)] for a
    combined multiplier m in (0,1] (a product of same-game, same-team and
    QB/WR-stack factors, each in (0,1]), so 0 <= adjusted <= base, where
    base is [calculateParlayProbability], the product of the legs' smoothed
    probabilities. *)
Theorem calculateParlayPenalties_decreasing (legs : list Leg.t) :
  Forall (fun l => 0 <= Leg.smoothedProb l <= 1) legs ->
  (exists multiplier, 0 < multiplier <= 1 /\
     fst (calculateParlayPenalties legs) =
       js_max (calculateParlayProbability legs * multiplier) 0) /\
  0 <= fst (calculateParlayPenalties legs) <= calculateParlayProbability legs.
Proof.
  intros Hlegs. pose proof (calculateParlayProbability_unit legs Hlegs) as Hb.
  unfold calculateParlayPenalties, same_game_penalties.
  destruct (team_collect legs) as [teamCounts teamLegs].
  pose proof (fold_multiplier_unit qb_wr_step qb_wr_step_unit teamLegs _
    (fold_multiplier_unit same_team_step same_team_step_unit teamCounts _
      (fold_multiplier_unit same_game_step same_game_step_unit (gameCounts_of legs) (1, [])
         ltac:(simpl; lra)))) as Hm.
  destruct (fold_left qb_wr_step teamLegs _) as [multiplier penalties]. simpl in Hm |- *.
  split; [exists multiplier; split; [exact Hm|reflexivity]|].
  unfold js_max.
  assert (H0 : 0 <= calculateParlayProbability legs * multiplier)
    by (apply Qmult_le_0_compat; lra).
  destruct (Qle_bool 0 _) eqn:E; qle_bool_hyps; [|lra].
  split; [exact H0|].
  apply Qle_trans with (calculateParlayProbability legs * 1);
    [apply Qmult_le_compat_nonneg; lra|lra].
Qed.

Lemma calculateParlayPenalties_decreasing_witness :
  Forall (fun l => 0 <= Leg.smoothedProb l <= 1) same_game_legs /\
  0 <= fst (calculateParlayPenalties same_game_legs) <= calculateParlayProbability same_game_legs.
Proof.
  assert (H : Forall (fun l => 0 <= Leg.smoothedProb l <= 1) same_game_legs)
    by (repeat constructor; vm_compute; discriminate).
  split; [exact H|].
  exact (proj2 (calculateParlayPenalties_decreasing same_game_legs H)).
Defined.

(** ** Ranking and slicing *)

(** [arr.slice(0, e)] is the first [e] elements, or all but the last [-e]
    when [e] is negative. *)
Lemma js_slice0_firstn {A} (l : list A) (e : Z) :
  js_slice0 l e =
  firstn (Z.to_nat (if (e <? 0)%Z then Z.of_nat (length l) + e else e)%Z) l.
Proof.
  unfold js_slice0. destruct (Z.ltb_spec e 0).
  - f_equal. lia.
  - replace (Z.to_nat (Z.min e (Z.of_nat (length l))))
      with (Nat.min (Z.to_nat e) (length l)) by lia.
    destruct (Nat.min_spec (Z.to_nat e) (length l)) as [[_ ->]|[Hle ->]]; [reflexivity|].
    rewrite firstn_all, firstn_all2 by exact Hle. reflexivity.
Qed.

(** The order [generateParlays] sorts into, on parlays: [p] may precede
    [q] when [q] has a lower adjusted probability, or the same one and a
    mean leg probability no higher. *)
Definition parlay_before (p q : Parlay.t) : Prop :=
  estProb q < estProb p \/ (estProb q == estProb p /\ avgLegProb q <= avgLegProb p).

Definition pair_before (a b : Parlay.t * Q) : Prop :=
  estProb (fst b) < estProb (fst a) \/ (estProb (fst b) == estProb (fst a) /\ snd b <= snd a).

Lemma parlay_cmp_le (x y : Parlay.t * Q) :
  Qle_bool (parlay_cmp y x) 0 = true -> pair_before y x.
Proof.
  unfold parlay_cmp, pair_before. intros H.
  destruct (Qeq_bool (estProb (fst x) - estProb (fst y)) 0) eqn:E; simpl in H;
    qle_bool_hyps.
  - apply Qeq_bool_iff in E. right. split; lra.
  - apply Qeq_bool_neq in E. left.
    destruct (Qle_lt_or_eq _ _ H) as [H'|H']; [lra|contradiction].
Qed.

Lemma parlay_cmp_gt (x y : Parlay.t * Q) :
  Qle_bool (parlay_cmp y x) 0 = false -> pair_before x y.
Proof.
  unfold parlay_cmp, pair_before. intros H.
  destruct (Qeq_bool (estProb (fst x) - estProb (fst y)) 0) eqn:E; simpl in H;
    qle_bool_hyps.
  - apply Qeq_bool_iff in E. right. split; lra.
  - left. lra.
Qed.

Lemma Sorted_map_fst {A B} (R' : A * B -> A * B -> Prop) (R : A -> A -> Prop)
    (P : A * B -> Prop) (l : list (A * B)) :
  (forall a b, P a -> P b -> R' a b -> R (fst a) (fst b)) ->
  Forall P l -> Sorted R' l -> Sorted R (map fst l).
Proof.
  intros HR HP Hs. induction Hs as [|a l Hs IH Hhd]; simpl; constructor.
  - apply IH. inversion HP; assumption.
  - destruct Hhd as [|b l' Hab]; simpl; constructor.
    inversion HP as [|? ? Pa HP']; subst. inversion HP'; subst. apply HR; assumption.
Qed.

Lemma generateParlays_sorted candidateLegs options :
  Sorted parlay_before (generateParlays candidateLegs options).
Proof.
  unfold generateParlays. cbv zeta.
  set (parlays := generateCombinations _ _ _ _ _ _).
  apply (Sorted_map_fst pair_before parlay_before (fun a => snd a = avgLegProb (fst a))).
  - intros [p a] [q b]; simpl. intros -> -> H. exact H.
  - apply Forall_forall. intros x Hx.
    apply list_elem_of_In, js_sort_In, in_map_iff in Hx as (p & <- & _). reflexivity.
  - apply js_sort_sorted; [exact parlay_cmp_le|exact parlay_cmp_gt].
Qed.

Lemma Sorted_parlay_before_head (p : Parlay.t) (l : list Parlay.t) :
  Sorted parlay_before (p :: l) -> Forall (fun q => estProb q <= estProb p) (p :: l).
Proof.
  revert p; induction l as [|b l IH]; intros p Hs.
  - constructor; [lra|constructor].
  - inversion Hs as [|? ? Hs' Hhd]; subst.
    inversion Hhd as [|? ? Hpb]; subst.
    assert (Hb : estProb b <= estProb p) by (unfold parlay_before in Hpb; lra).
    constructor; [lra|].
    eapply Forall_impl; [exact (IH b Hs')|]. simpl. intros q Hq. lra.
Qed.

(** ** C7 *)

(** C7 (amended). [getTopParlays] returns [allParlays.slice(0, topN)] of
    the full output of [generateParlays]: its first [topN] elements for
    [topN >= 0] (20 when [topN] is absent), but all except the last [-topN]
    for a negative [topN]. That output is sorted by adjusted probability
    descending, ties by mean leg smoothed probability descending; so with
    [topN = 1] the result is the first parlay, whose adjusted probability
    is the highest. *)
Theorem getTopParlays_sorted_prefix candidateLegs (topN : Z) options :
  let allParlays := generateParlays candidateLegs options in
  getTopParlays candidateLegs (Some topN) options =
    firstn (Z.to_nat (if (topN <? 0)%Z then Z.of_nat (length allParlays) + topN else topN))
      allParlays /\
  getTopParlays candidateLegs None options = firstn 20 allParlays /\
  Sorted parlay_before allParlays /\
  match allParlays with
  | [] => getTopParlays candidateLegs (Some 1%Z) options = []
  | p :: _ => getTopParlays candidateLegs (Some 1%Z) options = [p] /\
              Forall (fun q => estProb q <= estProb p) allParlays
  end.
Proof.
  cbv zeta. unfold getTopParlays. simpl default.
  pose proof (generateParlays_sorted candidateLegs options) as Hs.
  split; [apply js_slice0_firstn|].
  split; [rewrite js_slice0_firstn; reflexivity|].
  split; [exact Hs|].
  rewrite js_slice0_firstn. simpl.
  destruct (generateParlays candidateLegs options) as [|p rest]; [reflexivity|].
  split; [reflexivity|]. apply Sorted_parlay_before_head, Hs.
Qed.

Lemma getTopParlays_sorted_prefix_witness :
  getTopParlays three_legs (Some 1%Z) two_leg_options = [three_parlay0] /\
  Forall (fun q => estProb q <= estProb three_parlay0) three_parlays.
Proof.
  pose proof (getTopParlays_sorted_prefix three_legs 1%Z two_leg_options) as (_ & _ & _ & H).
  exact H.
Defined.

(** C7 fails as stated for a negative [topN]: with [topN = -1] and three
    valid two-leg parlays, [getTopParlays] returns two parlays, not the first
    -1 (that is, none) of them. *)
Lemma getTopParlays_negative_topN_counterexample :
  length three_parlays = 3%nat /\
  getTopParlays three_legs (Some (-1)%Z) two_leg_options = firstn 2 three_parlays /\
  length (getTopParlays three_legs (Some (-1)%Z) two_leg_options) = 2%nat /\
  firstn (Z.to_nat (-1)) three_parlays = [].
Proof. vm_compute. repeat split; reflexivity. Qed.

(** ** Activity filter *)

Lemma fold_add_elem {A} (f : gset string -> A -> gset string) (P : A -> string -> Prop)
    (t : string) (Hf : forall s x, t ∈ f s x <-> t ∈ s \/ P x t) :
  forall (l : list A) (S : gset string),
    t ∈ fold_left f l S <-> t ∈ S \/ exists x, In x l /\ P x t.
Proof.
  induction l as [|x l IH]; intros S; simpl.
  - split; [left; exact H|]. intros [H|(x & [] & _)]. exact H.
  - rewrite IH, Hf. split.
    + intros [[H|H]|(y & Hy & Py)]; [left; exact H|right; eauto|right; eauto].
    + intros [H|(y & [<-|Hy] & Py)]; [left; left; exact H|left; right; exact Py|right; eauto].
Qed.

(** A team is in [getByeWeekTeams logs week season] iff some log has it
    as its (non-empty) team and no log has it at that week and season. *)
Lemma getByeWeekTeams_spec (gameLogs : list GameLog.t) (week season : Q) (t : string) :
  t ∈ getByeWeekTeams gameLogs week season <->
  (exists log, In log gameLogs /\ GameLog.team log = Some t /\ t <> "") /\
  ~ (exists log, In log gameLogs /\ GameLog.team log = Some t /\
       opt_Q_eqb (GameLog.week log) week = true /\
       opt_Q_eqb (GameLog.season log) season = true /\ t <> "").
Proof.
  unfold getByeWeekTeams. cbv zeta. rewrite elem_of_difference.
  rewrite (fold_add_elem _ (fun log t => GameLog.team log = Some t /\ t <> "")),
          (fold_add_elem _ (fun log t => GameLog.team log = Some t /\
             opt_Q_eqb (GameLog.week log) week = true /\
             opt_Q_eqb (GameLog.season log) season = true /\ t <> "")).
  - split.
    + intros [[H|(x & Hx & Px)] Hn]; [set_solver|].
      split; [exists x; tauto|]. intros (y & Hy & Py). apply Hn. right. exists y. tauto.
    + intros [(x & Hx & Px) Hn]. split; [right; exists x; tauto|].
      intros [H|(y & Hy & Py)]; [set_solver|]. apply Hn. exists y. tauto.
  - intros s x. destruct (GameLog.team x) as [u|]; [|naive_solver].
    destruct (opt_Q_eqb (GameLog.week x) week), (opt_Q_eqb (GameLog.season x) season),
      (String.eqb_spec u ""); simpl; rewrite ?elem_of_union, ?elem_of_singleton; naive_solver.
  - intros s x. destruct (GameLog.team x) as [u|]; [|naive_solver].
    destruct (String.eqb_spec u ""); simpl; rewrite ?elem_of_union, ?elem_of_singleton;
      naive_solver.
Qed.

Lemma hasSnapsInLastNGames_two (getTime : string -> Z) gameLogs playerId :
  hasSnapsInLastNGames getTime gameLogs playerId 2 =
  match js_sort (date_desc_cmp getTime) (player_logs gameLogs playerId) with
  | a :: b :: _ => snaps_positive a && snaps_positive b
  | _ => false
  end.
Proof.
  unfold hasSnapsInLastNGames. rewrite js_slice0_firstn.
  destruct (js_sort _ _) as [|a [|b rest]]; simpl; [reflexivity|reflexivity|].
  destruct (snaps_positive a), (snaps_positive b); reflexivity.
Qed.

Lemma snaps_positive_spec (log : GameLog.t) :
  snaps_positive log = true <-> exists n, GameLog.snaps log = Some n /\ 0 < n.
Proof.
  unfold snaps_positive, Qltb. destruct (GameLog.snaps log) as [n|].
  - split.
    + intros H. exists n. split; [reflexivity|].
      apply negb_true_iff in H. qle_bool_hyps. exact H.
    + intros (m & [= <-] & H). apply negb_true_iff, Bool.not_true_iff_false.
      rewrite Qle_bool_iff. lra.
  - split; [discriminate|]. intros (m & [=] & _).
Qed.

Lemma date_desc_sorted (getTime : string -> Z) (l : list GameLog.t) :
  Sorted (fun x y => getTime (GameLog.gameDate y) <= getTime (GameLog.gameDate x))%Z
    (js_sort (date_desc_cmp getTime) l).
Proof.
  apply js_sort_sorted; intros x y H; unfold date_desc_cmp in H; qle_bool_hyps.
  - change 0 with (inject_Z 0) in H. rewrite <- Zle_Qle in H. lia.
  - change 0 with (inject_Z 0) in H. rewrite <- Zlt_Qlt in H. lia.
Qed.

Lemma player_logs_In gameLogs playerId log :
  In log (player_logs gameLogs playerId) -> In log gameLogs.
Proof. unfold player_logs. rewrite filter_In. tauto. Qed.

(** ** C8 *)

(** C8: for [isPlayerActive logs playerId week season]: [hasRecentSnaps]
    holds iff the player's logs sorted by date, most recent first, start with
    two logs that both have a defined positive snap count (so it is false
    with fewer than two logs); the team is the one of the player's first log
    in input order and, when it is a non-empty string, the player is on bye
    iff no log of the whole set has that team at that week and season
    (otherwise the player is never on bye); and [isActive] is
    [!isOnBye && hasRecentSnaps]. *)
Theorem isPlayerActive_spec (getTime : string -> Z) (gameLogs : list GameLog.t)
    (playerId : string) (currentWeek season : Q) :
  let st := isPlayerActive getTime gameLogs playerId currentWeek season in
  let byDate := js_sort (date_desc_cmp getTime) (player_logs gameLogs playerId) in
  Permutation byDate (player_logs gameLogs playerId) /\
  Sorted (fun x y => getTime (GameLog.gameDate y) <= getTime (GameLog.gameDate x))%Z byDate /\
  (PlayerStatus.hasRecentSnaps st = true <->
     exists a b rest, byDate = a :: b :: rest /\
       (exists n, GameLog.snaps a = Some n /\ 0 < n) /\
       (exists n, GameLog.snaps b = Some n /\ 0 < n)) /\
  ((length (player_logs gameLogs playerId) < 2)%nat -> PlayerStatus.hasRecentSnaps st = false) /\
  PlayerStatus.team st =
    match player_logs gameLogs playerId with first :: _ => GameLog.team first | [] => None end /\
  (forall t, PlayerStatus.team st = Some t -> t <> "" ->
     (PlayerStatus.isOnBye st = true <->
      ~ exists log, In log gameLogs /\ GameLog.team log = Some t /\
          opt_Q_eqb (GameLog.week log) currentWeek = true /\
          opt_Q_eqb (GameLog.season log) season = true)) /\
  (PlayerStatus.isOnBye st = true -> exists t, PlayerStatus.team st = Some t /\ t <> "") /\
  PlayerStatus.isActive st = negb (PlayerStatus.isOnBye st) && PlayerStatus.hasRecentSnaps st.
Proof.
  cbv zeta.
  assert (Hsnaps : PlayerStatus.hasRecentSnaps
                     (isPlayerActive getTime gameLogs playerId currentWeek season) =
                   hasSnapsInLastNGames getTime gameLogs playerId 2).
  { unfold isPlayerActive. destruct (player_logs gameLogs playerId) eqn:E; [|reflexivity].
    rewrite hasSnapsInLastNGames_two, E. reflexivity. }
  pose proof (js_sort_perm (date_desc_cmp getTime) (player_logs gameLogs playerId)) as Hperm.
  split; [exact Hperm|]. split; [apply date_desc_sorted|].
  assert (Hrs : PlayerStatus.hasRecentSnaps
                  (isPlayerActive getTime gameLogs playerId currentWeek season) = true <->
                exists a b rest,
                  js_sort (date_desc_cmp getTime) (player_logs gameLogs playerId) = a :: b :: rest /\
                  (exists n, GameLog.snaps a = Some n /\ 0 < n) /\
                  (exists n, GameLog.snaps b = Some n /\ 0 < n)).
  { rewrite Hsnaps, hasSnapsInLastNGames_two.
    destruct (js_sort _ _) as [|a [|b rest]].
    - split; [discriminate|]. intros (? & ? & ? & [=] & _).
    - split; [discriminate|]. intros (? & ? & ? & [=] & _).
    - rewrite andb_true_iff, !snaps_positive_spec. split.
      + intros [Ha Hb]. exists a, b, rest. auto.
      + intros (a' & b' & rest' & [= <- <- <-] & Ha & Hb). auto. }
  split; [exact Hrs|].
  split.
  { intros Hlen. apply Bool.not_true_iff_false. rewrite Hrs.
    intros (a & b & rest & E & _). apply Permutation_length in Hperm.
    rewrite E in Hperm. simpl in Hperm. lia. }
  unfold isPlayerActive.
  destruct (player_logs gameLogs playerId) as [|first others] eqn:Epl; simpl.
  { repeat split; try discriminate; intros t Ht; discriminate. }
  assert (Hfirst : In first gameLogs)
    by (apply (player_logs_In gameLogs playerId); rewrite Epl; left; reflexivity).
  split; [reflexivity|].
  split; [|split; [|reflexivity]].
  - intros t Htf Hne. rewrite Htf. destruct (String.eqb_spec t "") as [|_]; [contradiction|].
    rewrite bool_decide_eq_true, getByeWeekTeams_spec. split.
    + intros [_ Hn] (log & Hlog & Ht & Hw & Hs). apply Hn. exists log. tauto.
    + intros Hn. split; [exists first; auto|].
      intros (log & Hlog & Ht & Hw & Hs & _). apply Hn. exists log. tauto.
  - destruct (GameLog.team first) as [t|]; [|discriminate].
    destruct (String.eqb_spec t ""); [discriminate|]. intros _. exists t. tauto.
Qed.

(** ** Stat normalizer *)

Lemma mapping_step_lookup (g : gmap string JSVal) (a s k : string) :
  mapping_step g (a, s) !! k = g !! k \/
  (k = s /\ is_nullish (g !! s) = true /\ mapping_step g (a, s) !! k = g !! a).
Proof.
  unfold mapping_step. destruct (g !! a) as [v|] eqn:Ea; [|left; reflexivity].
  destruct (is_nullish (g !! s)) eqn:Es; [|left; reflexivity].
  destruct (decide (k = s)) as [->|Hne].
  - right. rewrite lookup_insert_eq. auto.
  - left. rewrite lookup_insert_ne by congruence. reflexivity.
Qed.

Lemma default_step_lookup (g : gmap string JSVal) (field k : string) :
  default_step g field !! k = g !! k \/
  (k = field /\ is_nullish (g !! field) = true /\ default_step g field !! k = Some (JNum 0)).
Proof.
  unfold default_step. destruct (is_nullish (g !! field)) eqn:Es; [|left; reflexivity].
  destruct (decide (k = field)) as [->|Hne].
  - right. rewrite lookup_insert_eq. auto.
  - left. rewrite lookup_insert_ne by congruence. reflexivity.
Qed.

Lemma default_step_field (g : gmap string JSVal) (field : string) :
  is_nullish (default_step g field !! field) = false.
Proof.
  unfold default_step. destruct (is_nullish (g !! field)) eqn:Es; [|exact Es].
  rewrite lookup_insert_eq. reflexivity.
Qed.

Section MappingFold.

Variable ms : list (string * string).
Hypothesis alt_not_standard : forall a s a' s', In (a, s) ms -> In (a', s') ms -> a <> s'.

Lemma mapping_fold_spec (g : gmap string JSVal) (f : string) :
  (is_nullish (g !! f) = false -> fold_left mapping_step ms g !! f = g !! f) /\
  (fold_left mapping_step ms g !! f = g !! f \/
   (is_nullish (g !! f) = true /\
    exists alt, In (alt, f) ms /\ fold_left mapping_step ms g !! f = g !! alt)) /\
  (is_nullish (g !! f) = true ->
   (forall alt, In (alt, f) ms -> is_nullish (g !! alt) = true) ->
   is_nullish (fold_left mapping_step ms g !! f) = true).
Proof.
  revert g alt_not_standard; induction ms as [|[a s] ms' IH]; intros g Hdisj; cbn [fold_left].
  - split; [reflexivity|]. split; [left; reflexivity|]. intros H _. exact H.
  - assert (Hdisj' : forall a s a' s', In (a, s) ms' -> In (a', s') ms' -> a <> s')
      by (intros; apply (Hdisj a0 s0 a' s'); right; assumption).
    destruct (IH (mapping_step g (a, s)) Hdisj') as (IH1 & IH2 & IH3).
    assert (Halt : forall alt, In (alt, f) ms' -> mapping_step g (a, s) !! alt = g !! alt).
    { intros alt Hin. destruct (mapping_step_lookup g a s alt) as [E|(-> & _ & _)]; [exact E|].
      exfalso. apply (Hdisj s f a s); [right; exact Hin|left; reflexivity|reflexivity]. }
    destruct (mapping_step_lookup g a s f) as [E|(-> & Hn & E)].
    + rewrite E in IH1, IH2, IH3. split; [exact IH1|]. split.
      * destruct IH2 as [H|(Hn & alt & Hin & H)]; [left; exact H|].
        right. split; [exact Hn|]. exists alt. split; [right; exact Hin|].
        rewrite H. apply Halt, Hin.
      * intros Hn Hall. apply IH3; [exact Hn|].
        intros alt Hin. rewrite Halt by exact Hin. apply Hall. right. exact Hin.
    + split; [intros H; rewrite H in Hn; discriminate|]. split.
      * right. split; [exact Hn|].
        destruct IH2 as [H|(_ & alt & Hin & H)].
        -- exists a. split; [left; reflexivity|]. rewrite H, E. reflexivity.
        -- exists alt. split; [right; exact Hin|]. rewrite H. apply Halt, Hin.
      * intros _ Hall. apply IH3.
        -- rewrite E. apply Hall. left. reflexivity.
        -- intros alt Hin. rewrite Halt by exact Hin. apply Hall. right. exact Hin.
Qed.

End MappingFold.

Lemma default_fold_spec (fields : list string) (g : gmap string JSVal) (f : string) :
  (is_nullish (g !! f) = false -> fold_left default_step fields g !! f = g !! f) /\
  (fold_left default_step fields g !! f = g !! f \/
   (is_nullish (g !! f) = true /\ fold_left default_step fields g !! f = Some (JNum 0))) /\
  (In f fields -> is_nullish (fold_left default_step fields g !! f) = false) /\
  (~ In f fields -> fold_left default_step fields g !! f = g !! f).
Proof.
  revert g; induction fields as [|field fields IH]; intros g; cbn [fold_left In].
  - split; [reflexivity|]. split; [left; reflexivity|]. split; [contradiction|reflexivity].
  - destruct (IH (default_step g field)) as (IH1 & IH2 & IH3 & IH4).
    destruct (default_step_lookup g field f) as [E|(-> & Hn & E)].
    + rewrite E in IH1, IH2, IH4. split; [exact IH1|]. split; [exact IH2|]. split.
      * intros [<-|Hin]; [|apply IH3, Hin].
        destruct (In_dec String.string_dec field fields) as [Hin|Hin]; [apply IH3, Hin|].
        rewrite (IH4 Hin), <- E. apply default_step_field.
      * intros Hin. apply IH4. intros H. apply Hin. right. exact H.
    + split; [intros H; rewrite H in Hn; discriminate|].
      assert (Hf : is_nullish (default_step g field !! field) = false) by apply default_step_field.
      split; [right; split; [exact Hn|rewrite IH1 by exact Hf; exact E]|].
      split; [intros _; rewrite IH1 by exact Hf; exact Hf|].
      intros Hin. exfalso. apply Hin. left. reflexivity.
Qed.

Lemma statMappings_alt_not_standard :
  forall a s a' s', In (a, s) statMappings -> In (a', s') statMappings -> a <> s'.
Proof.
  intros a s a' s' H1 H2 Heq. subst. simpl in H1, H2.
  destruct_or? H1; destruct_or? H2; simplify_eq; contradiction.
Qed.

(** ** C9 *)

(** C9: for each of the five canonical stat fields, [normalizeGameLog]
    keeps a canonical value that is present (neither missing, undefined nor
    null); it changes the field only when the raw value is missing or null,
    and then to the value of one of its alternate fields or to 0; when the
    raw field and all its alternates are missing or null, the field becomes
    0; and in every result the field is defined and not null. Every other
    field, the alternate ones included, is left as it is. *)
Theorem normalizeGameLog_fields (gameLog : gmap string JSVal) (f : string) :
  In f expectedStatFields ->
  (is_nullish (gameLog !! f) = false -> normalizeGameLog gameLog !! f = gameLog !! f) /\
  is_nullish (normalizeGameLog gameLog !! f) = false /\
  (normalizeGameLog gameLog !! f = gameLog !! f \/
   (is_nullish (gameLog !! f) = true /\
    (normalizeGameLog gameLog !! f = Some (JNum 0) \/
     exists alt, In (alt, f) statMappings /\ normalizeGameLog gameLog !! f = gameLog !! alt))) /\
  (is_nullish (gameLog !! f) = true ->
   (forall alt, In (alt, f) statMappings -> is_nullish (gameLog !! alt) = true) ->
   normalizeGameLog gameLog !! f = Some (JNum 0)) /\
  (forall k, ~ In k expectedStatFields -> normalizeGameLog gameLog !! k = gameLog !! k).
Proof.
  intros Hin. unfold normalizeGameLog. cbv zeta.
  destruct (mapping_fold_spec statMappings statMappings_alt_not_standard gameLog f)
    as (M1 & M2 & M3).
  destruct (default_fold_spec expectedStatFields
              (fold_left mapping_step statMappings gameLog) f) as (D1 & D2 & D3 & _).
  pose proof (D3 Hin) as Hdef.
  split; [intros Hn; rewrite D1; [apply M1, Hn|rewrite M1; exact Hn]|].
  split; [exact Hdef|].
  split.
  - destruct D2 as [E|(Hn & E)].
    + rewrite E. destruct M2 as [E'|(Hn & alt & Halt & E')]; [left; exact E'|].
      right. split; [exact Hn|]. right. exists alt. auto.
    + right. split; [|left; exact E].
      destruct M2 as [E'|(Hn' & _)]; [rewrite <- E'; exact Hn|exact Hn'].
  - split.
    + intros Hn Hall. destruct D2 as [E|(_ & E)]; [|exact E].
      rewrite E in Hdef. rewrite (M3 Hn Hall) in Hdef. discriminate.
    + intros k Hk.
      destruct (default_fold_spec expectedStatFields
                  (fold_left mapping_step statMappings gameLog) k) as (_ & _ & _ & D4).
      rewrite (D4 Hk).
      destruct (mapping_fold_spec statMappings statMappings_alt_not_standard gameLog k)
        as (_ & [E|(_ & alt & Halt & _)] & _); [exact E|].
      exfalso. apply Hk. simpl in Halt |- *.
      destruct_or? Halt; simplify_eq; tauto.
Qed.

Lemma normalizeGameLog_fields_witness :
  normalizeGameLog sample_raw_log !! "pass_yards" = Some (JNum 250) /\
  is_nullish (normalizeGameLog sample_raw_log !! "pass_yards") = false.
Proof.
  split; [vm_compute; reflexivity|].
  exact (proj1 (proj2 (normalizeGameLog_fields sample_raw_log "pass_yards"
                         ltac:(left; reflexivity)))).
Defined.

(* ================================================================== *)
(** * Further properties of the code *)

(** ** Confidence levels *)

(** X1. [getConfidenceLevel] is monotone: a higher smoothed probability
    never gets a lower level (Speculative < Fair < Strong < Elite). *)
Theorem getConfidenceLevel_monotone (p q : Q) :
  p <= q -> (conf_rank (getConfidenceLevel p) <= conf_rank (getConfidenceLevel q))%nat.
Proof.
  intros Hpq. unfold getConfidenceLevel.
  destruct (Qle_bool (85 # 100) p) eqn:E1, (Qle_bool (85 # 100) q) eqn:E2,
    (Qle_bool (75 # 100) p) eqn:E3, (Qle_bool (75 # 100) q) eqn:E4,
    (Qle_bool (65 # 100) p) eqn:E5, (Qle_bool (65 # 100) q) eqn:E6;
    qle_bool_hyps; simpl; try lia; exfalso; lra.
Qed.

Lemma getConfidenceLevel_monotone_witness :
  (80 # 100) <= 90 # 100 /\
  (conf_rank (getConfidenceLevel (80 # 100)) <= conf_rank (getConfidenceLevel (90 # 100)))%nat.
Proof.
  assert (H : (80 # 100) <= 90 # 100) by (vm_compute; discriminate).
  exact (conj H (getConfidenceLevel_monotone _ _ H)).
Defined.

(** ** Legs of one player *)

Section EngineExtras.
Variable Math_sqrt : Q -> Q.
Variable getTime : string -> Z.

(** No selected log, no leg. *)
Lemma generateLegs_selected_nil pid pname logs lastN minP minS minT :
  selectLogs getTime logs lastN = [] ->
  generateLegs Math_sqrt getTime pid pname logs lastN minP minS minT = [].
Proof.
  intros H. unfold generateLegs. cbv zeta. rewrite H.
  destruct (Qltb _ _); reflexivity.
Qed.

Lemma selectLogs_nil_or_zero logs lastN :
  logs = [] \/ lastN = Some 0%Z -> selectLogs getTime logs lastN = [].
Proof.
  unfold selectLogs. intros [-> | ->]; rewrite js_slice0_firstn; [apply firstn_nil|reflexivity].
Qed.

(** Each leg of [generateLegs] is built by [make_leg] from the most recent
    selected log, at a threshold of its stat that passes the filter. *)
Lemma generateLegs_make_leg pid pname logs lastN minP minS minT leg :
  In leg (generateLegs Math_sqrt getTime pid pname logs lastN minP minS minT) ->
  let sorted := selectLogs getTime logs lastN in
  exists st ths th mrl rest,
    In (st, ths) STAT_THRESHOLDS /\ In th ths /\
    hasSufficientStatData sorted st 4 = true /\
    sorted = mrl :: rest /\
    leg_filter (default DEFAULT_MIN_PROBABILITY minP) (default DEFAULT_MIN_SAMPLE_SIZE minS)
      (probAt Math_sqrt sorted st th) = true /\
    leg = make_leg pid pname mrl st th (probAt Math_sqrt sorted st th).
Proof.
  intros Hin. cbv zeta.
  destruct (generateLegs_In Math_sqrt getTime _ _ _ _ _ _ _ _ Hin)
    as (_ & ths & mrl & rest & Hths & Hsuff & Hsorted & Ht).
  destruct (threshold_loop_Some Math_sqrt _ _ _ _ _ _ _ _ _ Ht)
    as (pre & th & post & Hsplit & _ & Hth & Hleg).
  exists (Leg.statType leg), ths, th, mrl, rest.
  split; [exact Hths|]. split; [rewrite Hsplit; apply in_or_app; right; left; reflexivity|].
  split; [exact Hsuff|]. split; [exact Hsorted|]. split; [exact Hth|exact Hleg].
Qed.

Lemma leg_cmp_le (x y : Leg.t) : Qle_bool (leg_cmp y x) 0 = true -> leg_before y x.
Proof.
  unfold leg_cmp, leg_before.
  destruct (Qeq_bool (Leg.smoothedProb x) (Leg.smoothedProb y)) eqn:E; simpl; intros H;
    qle_bool_hyps.
  - apply Qeq_bool_iff in E. right. split; [symmetry; exact E|lra].
  - apply Qeq_bool_neq in E. apply Qle_lt_or_eq in H as [H|H].
    + left. lra.
    + exfalso. apply E. lra.
Qed.

Lemma leg_cmp_gt (x y : Leg.t) : Qle_bool (leg_cmp y x) 0 = false -> leg_before x y.
Proof.
  unfold leg_cmp, leg_before.
  destruct (Qeq_bool (Leg.smoothedProb x) (Leg.smoothedProb y)) eqn:E; simpl; intros H;
    qle_bool_hyps.
  - apply Qeq_bool_iff in E. right. split; [exact E|lra].
  - left. lra.
Qed.

Lemma js_sort_leg_sorted (l : list Leg.t) : Sorted leg_before (js_sort leg_cmp l).
Proof. apply js_sort_sorted; [exact leg_cmp_le|exact leg_cmp_gt]. Qed.

Lemma length_flat_map_opt {A B} (f : A -> option B) (l : list A) :
  (length (flat_map (fun x => opt_to_list (f x)) l) <= length l)%nat.
Proof.
  induction l as [|x l IH]; simpl; [lia|].
  rewrite length_app. destruct (f x); simpl; lia.
Qed.

(** [for (const player of players) allLegs.push(...f(player))]. *)
Lemma fold_push_flat_map {A B} (f : A -> list B) (l : list A) (acc : list B) :
  fold_left (fun acc x => acc ++ f x) l acc = acc ++ flat_map f l.
Proof.
  revert acc; induction l as [|x l IH]; intros acc; simpl; [now rewrite app_nil_r|].
  rewrite IH. now rewrite app_assoc.
Qed.

(** X2. [generateLegs] returns no leg when there is no game log, and when
    [lastN] is 0, whatever the minimums. *)
Theorem generateLegs_no_logs pid pname logs lastN minP minS minT :
  logs = [] \/ lastN = Some 0%Z ->
  generateLegs Math_sqrt getTime pid pname logs lastN minP minS minT = [].
Proof.
  intros H. apply generateLegs_selected_nil, selectLogs_nil_or_zero, H.
Qed.

(** X3. Every leg of [generateLegs] carries the player's id and name; a
    threshold of its stat in [STAT_THRESHOLDS]; a sample size of at least 4
    and of at least [minSampleSize] (default 6); a smoothed probability of
    at least [minProbability] (default 0.80); the confidence level of that
    probability; the stat's values of the selected logs; and the game id,
    date, team, opponent and position of the first selected log, which has
    the latest date among all the player's logs. *)
Theorem generateLegs_leg_fields pid pname logs lastN minP minS minT leg :
  In leg (generateLegs Math_sqrt getTime pid pname logs lastN minP minS minT) ->
  let sorted := selectLogs getTime logs lastN in
  exists ths mrl rest,
    sorted = mrl :: rest /\
    (forall log, In log logs ->
       (getTime (GameLog.gameDate log) <= getTime (GameLog.gameDate mrl))%Z) /\
    Leg.playerId leg = pid /\ Leg.playerName leg = pname /\
    In (Leg.statType leg, ths) STAT_THRESHOLDS /\ In (Leg.threshold leg) ths /\
    (4 <= Leg.sampleSize leg)%nat /\
    default DEFAULT_MIN_SAMPLE_SIZE minS <= Qnat (Leg.sampleSize leg) /\
    default DEFAULT_MIN_PROBABILITY minP <= Leg.smoothedProb leg /\
    Leg.confidence leg = getConfidenceLevel (Leg.smoothedProb leg) /\
    Leg.lastNGameValues leg = statValues (Leg.statType leg) sorted /\
    Leg.gameId leg = GameLog.gameId mrl /\
    Leg.gameDate leg = Some (GameLog.gameDate mrl) /\
    Leg.team leg = GameLog.team mrl /\
    Leg.opponent leg = GameLog.opponent mrl /\
    Leg.position leg = GameLog.position mrl.
Proof.
  intros Hin. cbv zeta.
  destruct (generateLegs_make_leg _ _ _ _ _ _ _ _ Hin)
    as (st & ths & th & mrl & rest & Hths & Hth & Hsuff & Hsorted & Hf & ->).
  rewrite (leg_filter_sufficient Math_sqrt _ _ _ _ _ Hsuff) in Hf.
  apply andb_true_iff in Hf as [HS HP]. apply Qle_bool_iff in HS, HP.
  destruct (calculateProbability_sufficient Math_sqrt _ st th DEFAULT_BETA_A DEFAULT_BETA_B Hsuff)
    as (Hv & Hn & H4).
  exists ths, mrl, rest. cbn.
  split; [exact Hsorted|]. split.
  { intros log Hlog.
    assert (Hs : exists rest', js_sort (date_desc_cmp getTime) logs = mrl :: rest').
    { unfold selectLogs in Hsorted. rewrite js_slice0_firstn in Hsorted.
      destruct (js_sort (date_desc_cmp getTime) logs) as [|a l]; [rewrite firstn_nil in Hsorted; discriminate|].
      destruct (Z.to_nat _); [discriminate|]. injection Hsorted as -> _. now exists l. }
    destruct Hs as (rest' & Hs).
    pose proof (date_desc_sorted getTime logs) as Hsort. rewrite Hs in Hsort.
    apply Sorted_StronglySorted in Hsort; [|intros x y z; lia].
    apply StronglySorted_inv in Hsort as [_ Hall].
    apply (js_sort_In (date_desc_cmp getTime)) in Hlog. rewrite Hs in Hlog.
    destruct Hlog as [<-|Hlog]; [lia|].
    rewrite Forall_forall in Hall. apply Hall, list_elem_of_In, Hlog. }
  unfold probAt in *. rewrite Hn in HS. rewrite Hv, Hn.
  repeat split; try assumption; reflexivity.
Qed.

(** X4. The legs of [generateLegs] come sorted by smoothed probability,
    highest first, then by consistency (standard deviation), lowest first;
    there are at most five of them, one per stat type at most. *)
Theorem generateLegs_sorted_bounded pid pname logs lastN minP minS minT :
  let legs := generateLegs Math_sqrt getTime pid pname logs lastN minP minS minT in
  Sorted leg_before legs /\ (length legs <= 5)%nat.
Proof.
  cbv zeta. unfold generateLegs. cbv zeta.
  destruct (Qltb _ _); [split; [constructor|simpl; lia]|].
  split; [apply js_sort_leg_sorted|].
  rewrite (Permutation_length (js_sort_perm leg_cmp _)), stat_step_fold, app_nil_l.
  etransitivity; [apply length_flat_map_opt|]. simpl. lia.
Qed.

(** X5. [generateLegsForPlayers] returns the legs [generateLegs] gives each
    player (with the player's logs, [[]] when the record has none, and the
    defaults 0.80, 6 and 5 for the minimums), all of them and nothing else,
    sorted like [generateLegs]' own output; so every leg belongs to a listed
    player that has a non-empty log array in the record. *)
Theorem generateLegsForPlayers_spec players gameLogsByPlayerId lastN minP minS minT :
  let out := generateLegsForPlayers Math_sqrt getTime players gameLogsByPlayerId lastN
               minP minS minT in
  let per (player : string * option string) :=
    generateLegs Math_sqrt getTime (fst player) (snd player)
      (default [] (gameLogsByPlayerId !! fst player)) lastN
      (Some (default DEFAULT_MIN_PROBABILITY minP)) (Some (default DEFAULT_MIN_SAMPLE_SIZE minS))
      (Some (default DEFAULT_MIN_TOUCHES_PER_GAME minT)) in
  Permutation out (flat_map per players) /\
  Sorted leg_before out /\
  (forall leg, In leg out ->
     exists player logs, In player players /\
       gameLogsByPlayerId !! fst player = Some logs /\ logs <> [] /\
       Leg.playerId leg = fst player /\ Leg.playerName leg = snd player).
Proof.
  cbv zeta. unfold generateLegsForPlayers. cbv zeta.
  rewrite fold_push_flat_map, app_nil_l.
  split; [apply js_sort_perm|]. split; [apply js_sort_leg_sorted|].
  intros leg Hin. apply js_sort_In, in_flat_map in Hin as (player & Hp & Hin).
  destruct (gameLogsByPlayerId !! fst player) as [logs|] eqn:E; simpl in Hin.
  - destruct logs as [|log logs].
    + rewrite generateLegs_selected_nil in Hin by (apply selectLogs_nil_or_zero; left; reflexivity).
      contradiction.
    + exists player, (log :: logs). split; [exact Hp|]. split; [exact E|].
      split; [discriminate|].
      destruct (generateLegs_make_leg _ _ _ _ _ _ _ _ Hin)
        as (st & ths & th & mrl & rest & _ & _ & _ & _ & _ & ->).
      split; reflexivity.
  - rewrite generateLegs_selected_nil in Hin by (apply selectLogs_nil_or_zero; left; reflexivity).
    contradiction.
Qed.

End EngineExtras.

Lemma generateLegs_no_logs_witness :
  generateLegs sample_sqrt sample_getTime "wr1" None wr_logs (Some 0%Z) None None None = [].
Proof.
  exact (generateLegs_no_logs sample_sqrt sample_getTime "wr1" None wr_logs (Some 0%Z) None None None
           (or_intror eq_refl)).
Defined.

Lemma generateLegs_leg_fields_witness :
  In wr_leg0 wr_legs /\
  Leg.confidence wr_leg0 = getConfidenceLevel (Leg.smoothedProb wr_leg0) /\
  Leg.gameId wr_leg0 = Some "G6".
Proof.
  assert (H : In wr_leg0 wr_legs) by (vm_compute; left; reflexivity).
  destruct (generateLegs_leg_fields sample_sqrt sample_getTime "wr1" None wr_logs None
              (Some (60 # 100)) None None wr_leg0 H)
    as (ths & mrl & rest & Hs & _ & _ & _ & _ & _ & _ & _ & _ & Hc & _ & Hg & _).
  split; [exact H|]. split; [exact Hc|].
  rewrite Hg. vm_compute in Hs. injection Hs as <- _. reflexivity.
Defined.

Lemma generateLegs_sorted_bounded_witness :
  Sorted leg_before wr_legs /\ (length wr_legs <= 5)%nat.
Proof.
  exact (generateLegs_sorted_bounded sample_sqrt sample_getTime "wr1" None wr_logs None
           (Some (60 # 100)) None None).
Defined.

(** ** Parlays *)

Lemma generateCombinations_sublist legCount asg ast size rest current p :
  In p (generateCombinations legCount asg ast size rest current) ->
  exists s, s `sublist_of` rest /\ p = mkParlayFrom (current ++ s) /\
    isValidParlay (current ++ s) legCount asg ast = true.
Proof.
  revert current; induction rest as [|x rest IH]; intros current; simpl.
  - destruct (Qeq_bool _ _); [|contradiction].
    destruct (isValidParlay current legCount asg ast) eqn:E; [|contradiction].
    intros [<-|[]]. exists []. rewrite app_nil_r. split; [constructor|]. split; [reflexivity|exact E].
  - destruct (Qeq_bool _ _).
    + destruct (isValidParlay current legCount asg ast) eqn:E; [|contradiction].
      intros [<-|[]]. exists []. rewrite app_nil_r.
      split; [apply sublist_nil_l|]. split; [reflexivity|exact E].
    + intros Hin. apply in_app_or in Hin as [Hin|Hin].
      * destruct (IH _ Hin) as (s & Hs & Hp & Hv). exists (x :: s).
        rewrite <- app_assoc in Hp, Hv. simpl in Hp, Hv.
        split; [apply sublist_skip, Hs|]. split; [exact Hp|exact Hv].
      * destruct (IH _ Hin) as (s & Hs & Hp & Hv). exists s.
        split; [apply sublist_cons, Hs|]. split; [exact Hp|exact Hv].
Qed.

Lemma List_filter_sublist {A} (f : A -> bool) (l : list A) : List.filter f l `sublist_of` l.
Proof.
  induction l as [|x l IH]; simpl; [constructor|].
  destruct (f x); [apply sublist_skip, IH|apply sublist_cons, IH].
Qed.

(** The parlays of [generateParlays] are built from the filtered legs. *)
Lemma generateParlays_from_filtered candidateLegs options p :
  In p (generateParlays candidateLegs options) ->
  let minLegProb := default (80 # 100) (ParlayOptions.minLegProb options) in
  let singleGame := default false (ParlayOptions.singleGame options) in
  let filtered1 := List.filter (fun leg => Qle_bool minLegProb (Leg.smoothedProb leg)) candidateLegs in
  let filtered :=
    if singleGame && truthy (ParlayOptions.gameId options)
    then List.filter (fun leg => opt_str_eqb (Leg.gameId leg) (ParlayOptions.gameId options))
           filtered1
    else filtered1 in
  exists s, s `sublist_of` filtered /\ p = mkParlayFrom s /\
    isValidParlay s (effectiveLegCount options)
      (if singleGame then true else default false (ParlayOptions.allowSameGame options))
      (default false (ParlayOptions.allowSameTeamStack options)) = true.
Proof.
  unfold generateParlays. cbv zeta. intros Hin.
  apply in_map_iff in Hin as ([p' a] & Hp & Hin). simpl in Hp. subst p'.
  apply js_sort_In, in_map_iff in Hin as (p' & Hp' & Hin). injection Hp' as -> _.
  apply generateCombinations_sublist in Hin as (s & Hs & Hp & Hv).
  exists s. split; [exact Hs|]. split; [exact Hp|exact Hv].
Qed.

Lemma opt_str_eqb_eq (a b : option string) : opt_str_eqb a b = true -> a = b.
Proof.
  destruct a as [x|], b as [y|]; simpl; try discriminate; [|reflexivity].
  intros H. apply String.eqb_eq in H. subst. reflexivity.
Qed.

Lemma stack_pairs_ok_nth (b : bool) (l : list Leg.t) :
  stack_pairs_ok b l = true ->
  forall i j a c, (i < j)%nat -> nth_error l i = Some a -> nth_error l j = Some c ->
    violatesSameTeamStack a c b = false.
Proof.
  induction l as [|x l IH]; intros H i j a c Hij Hi Hj; [destruct i; discriminate|].
  simpl in H. apply andb_true_iff in H as [Hall Hrest].
  destruct i as [|i], j as [|j]; try lia; simpl in Hi, Hj.
  - injection Hi as <-. apply nth_error_In in Hj.
    rewrite forallb_forall in Hall. specialize (Hall c Hj). now apply negb_true_iff in Hall.
  - apply (IH Hrest i j); [lia|exact Hi|exact Hj].
Qed.

Lemma violatesSameTeamStack_sym (a c : Leg.t) (b : bool) :
  violatesSameTeamStack a c b = violatesSameTeamStack c a b.
Proof.
  unfold violatesSameTeamStack. destruct b; [reflexivity|].
  destruct (isQBPassingYards a), (isWRTEReceivingYards a), (isQBPassingYards c),
    (isWRTEReceivingYards c);
  destruct (Leg.team a) as [ta|], (Leg.team c) as [tc|]; simpl;
  rewrite ?orb_true_r, ?orb_false_r; try reflexivity;
  destruct (String.eqb_spec ta ""), (String.eqb_spec tc ""), (String.eqb_spec ta tc),
    (String.eqb_spec tc ta); simpl; congruence.
Qed.

Lemma isValidParlay_stack legs legCount asg :
  isValidParlay legs legCount asg false = true -> stack_pairs_ok false legs = true.
Proof.
  unfold isValidParlay.
  destruct (negb _); [discriminate|]. destruct (negb _); [discriminate|].
  destruct (negb asg && _); [discriminate|].
  destruct (stack_pairs_ok false legs); [reflexivity|discriminate].
Qed.

(** X6. Every parlay of [generateParlays] takes its legs, in their input
    order, from the candidate legs; each leg has a smoothed probability of
    at least [minLegProb] (default 0.80) and, in single-game mode with a
    truthy [gameId], that game id; the parlay's adjusted probability, its
    [estProbability] and its penalty list are those
    [calculateParlayPenalties] gives for its legs (no penalty list when it
    is empty). *)
Theorem generateParlays_legs_from_candidates candidateLegs options p :
  In p (generateParlays candidateLegs options) ->
  Parlay.legs p `sublist_of` candidateLegs /\
  (forall leg, In leg (Parlay.legs p) ->
     default (80 # 100) (ParlayOptions.minLegProb options) <= Leg.smoothedProb leg /\
     (default false (ParlayOptions.singleGame options) = true ->
      truthy (ParlayOptions.gameId options) = true ->
      Leg.gameId leg = ParlayOptions.gameId options)) /\
  Parlay.estimatedProbability p = fst (calculateParlayPenalties (Parlay.legs p)) /\
  Parlay.estProbability p = Some (fst (calculateParlayPenalties (Parlay.legs p))) /\
  Parlay.penaltyBreakdown p =
    match snd (calculateParlayPenalties (Parlay.legs p)) with [] => None | ps => Some ps end.
Proof.
  intros Hin. destruct (generateParlays_from_filtered _ _ _ Hin) as (s & Hs & -> & _).
  rewrite mkParlayFrom_legs.
  set (f1 := List.filter _ candidateLegs) in Hs.
  assert (Hf1 : f1 `sublist_of` candidateLegs) by apply List_filter_sublist.
  assert (Hin1 : forall leg, In leg f1 ->
            default (80 # 100) (ParlayOptions.minLegProb options) <= Leg.smoothedProb leg).
  { intros leg Hl. apply filter_In in Hl as [_ Hl]. now apply Qle_bool_iff. }
  split; [|split; [|unfold mkParlayFrom; destruct (calculateParlayPenalties s) as [q ps]; simpl;
                     repeat split; destruct ps; reflexivity]].
  - destruct (_ && _); [|transitivity f1; assumption].
    transitivity (List.filter (fun leg => opt_str_eqb (Leg.gameId leg) (ParlayOptions.gameId options)) f1);
      [exact Hs|transitivity f1; [apply List_filter_sublist|exact Hf1]].
  - intros leg Hl. apply list_elem_of_In in Hl.
    destruct (default false (ParlayOptions.singleGame options)) eqn:Esg,
      (truthy (ParlayOptions.gameId options)) eqn:Eg; simpl in Hs;
      pose proof (elem_of_sublist _ _ _ Hl Hs) as Hl'; apply list_elem_of_In in Hl';
      clear Hl; rename Hl' into Hl;
      try (split; [now apply Hin1|discriminate]).
    apply filter_In in Hl as [Hl He]. split; [now apply Hin1|].
    intros _ _. now apply opt_str_eqb_eq.
Qed.

Lemma generateParlays_legs_from_candidates_witness :
  In three_parlay0 three_parlays /\ Parlay.legs three_parlay0 `sublist_of` three_legs.
Proof.
  assert (Hin : In three_parlay0 three_parlays) by (vm_compute; left; reflexivity).
  exact (conj Hin (proj1 (generateParlays_legs_from_candidates three_legs two_leg_options
                            three_parlay0 Hin))).
Defined.

(** X7. Unless [allowSameTeamStack] is set, no parlay of [generateParlays]
    pairs a QB passing-yards leg with a WR or TE receiving-yards leg of the
    same truthy team. *)
Theorem generateParlays_no_same_team_stack candidateLegs options p :
  default false (ParlayOptions.allowSameTeamStack options) = false ->
  In p (generateParlays candidateLegs options) ->
  forall i j leg1 leg2,
    i <> j -> nth_error (Parlay.legs p) i = Some leg1 -> nth_error (Parlay.legs p) j = Some leg2 ->
    isQBPassingYards leg1 = true -> isWRTEReceivingYards leg2 = true ->
    truthy (Leg.team leg1) = true -> Leg.team leg1 <> Leg.team leg2.
Proof.
  intros Hast Hin. destruct (generateParlays_In _ _ _ Hin) as (c & -> & Hv).
  rewrite Hast in Hv. apply isValidParlay_stack in Hv. rewrite mkParlayFrom_legs.
  intros i j leg1 leg2 Hij Hi Hj HQ HW Ht Heq.
  assert (Hviol : violatesSameTeamStack leg1 leg2 false = false).
  { destruct (Nat.lt_ge_cases i j).
    - exact (stack_pairs_ok_nth false c Hv i j leg1 leg2 ltac:(lia) Hi Hj).
    - rewrite violatesSameTeamStack_sym.
      exact (stack_pairs_ok_nth false c Hv j i leg2 leg1 ltac:(lia) Hj Hi). }
  unfold violatesSameTeamStack in Hviol. rewrite <- Heq, Ht, HQ, HW in Hviol.
  destruct (Leg.team leg1) as [t|]; [|discriminate].
  simpl in Hviol. rewrite String.eqb_refl in Hviol. discriminate.
Qed.

Lemma generateParlays_no_same_team_stack_witness :
  In three_parlay0 three_parlays /\
  (forall i j leg1 leg2,
    i <> j -> nth_error (Parlay.legs three_parlay0) i = Some leg1 ->
    nth_error (Parlay.legs three_parlay0) j = Some leg2 ->
    isQBPassingYards leg1 = true -> isWRTEReceivingYards leg2 = true ->
    truthy (Leg.team leg1) = true -> Leg.team leg1 <> Leg.team leg2).
Proof.
  assert (Hin : In three_parlay0 three_parlays) by (vm_compute; left; reflexivity).
  exact (conj Hin (generateParlays_no_same_team_stack three_legs two_leg_options three_parlay0
                     eq_refl Hin)).
Defined.


(** ** Legs with no shared game or team *)

Lemma filter_key_none {A} (f : A -> string) (l : list A) (k : string) :
  (forall y, In y l -> f y <> k) -> List.filter (fun x => String.eqb (f x) k) l = [].
Proof.
  induction l as [|x l IH]; simpl; intros H; [reflexivity|].
  destruct (String.eqb_spec (f x) k) as [E|]; [exfalso; exact (H x (or_introl eq_refl) E)|].
  apply IH. intros y Hy. exact (H y (or_intror Hy)).
Qed.

Lemma filter_key_count {A} (f : A -> string) (l : list A) (k : string) :
  NoDup (map f l) -> (length (List.filter (fun x => String.eqb (f x) k) l) <= 1)%nat.
Proof.
  induction l as [|x l IH]; simpl; intros Hnd; [lia|].
  apply NoDup_cons in Hnd as [Hx Hnd].
  destruct (String.eqb_spec (f x) k) as [<-|]; simpl; [|now apply IH].
  rewrite filter_key_none; [simpl; lia|].
  intros y Hy E. apply Hx, list_elem_of_In, in_map_iff. exists y. split; [exact E|exact Hy].
Qed.

Lemma same_game_fold_id (gc : list (string * nat)) (acc : Q * list PenaltyBreakdown) :
  Forall (fun e => (snd e <= 1)%nat) gc -> fold_left same_game_step gc acc = acc.
Proof.
  intros H. revert acc; induction H as [|[k c] gc Hc _ IH]; intros [m ps]; simpl; [reflexivity|].
  simpl in Hc. destruct (Nat.ltb_spec 1 c); [lia|]. apply IH.
Qed.

Lemma same_team_fold_ones (l : list (string * Leg.t)) (acc : Q * list PenaltyBreakdown) :
  fold_left same_team_step (map (fun p => (fst p, 1%nat)) l) acc = acc.
Proof.
  revert acc; induction l as [|[t leg] l IH]; intros [m ps]; simpl; [reflexivity|]. apply IH.
Qed.

Lemma isQB_isWRTE_exclusive (leg : Leg.t) :
  isQBPassingYards leg && isWRTEReceivingYards leg = false.
Proof.
  unfold isQBPassingYards, isWRTEReceivingYards.
  destruct (Leg.statType leg); simpl; rewrite ?andb_false_r; reflexivity.
Qed.

Lemma qb_wr_fold_singletons (l : list (string * Leg.t)) (acc : Q * list PenaltyBreakdown) :
  fold_left qb_wr_step (map (fun p => (fst p, [snd p])) l) acc = acc.
Proof.
  revert acc; induction l as [|[t leg] l IH]; intros [m ps]; simpl; [reflexivity|].
  rewrite !orb_false_r, isQB_isWRTE_exclusive. apply IH.
Qed.

Lemma map_get_notin (k : string) (m : list (string * nat)) :
  ~ In k (map fst m) -> map_get k m = None.
Proof.
  induction m as [|[k' v] m IH]; simpl; intros H; [reflexivity|].
  destruct (String.eqb_spec k k') as [->|]; [exfalso; apply H; left; reflexivity|].
  apply IH. intros Hin. apply H. right. exact Hin.
Qed.

Lemma map_set_fresh (k : string) (v : nat) (m : list (string * nat)) :
  ~ In k (map fst m) -> map_set k v m = m ++ [(k, v)].
Proof.
  induction m as [|[k' v'] m IH]; simpl; intros H; [reflexivity|].
  destruct (String.eqb_spec k k') as [->|]; [exfalso; apply H; left; reflexivity|].
  rewrite IH; [reflexivity|]. intros Hin. apply H. right. exact Hin.
Qed.

Lemma teamLegs_add_fresh (t : string) (leg : Leg.t) (tl : list (string * list Leg.t)) :
  ~ In t (map fst tl) -> teamLegs_add t leg tl = tl ++ [(t, [leg])].
Proof.
  induction tl as [|[t' ls] tl IH]; simpl; intros H; [reflexivity|].
  destruct (String.eqb_spec t' t) as [->|]; [exfalso; apply H; left; reflexivity|].
  rewrite IH; [reflexivity|]. intros Hin. apply H. right. exact Hin.
Qed.

Lemma team_pairs_cons (leg : Leg.t) (l : list Leg.t) :
  team_pairs (leg :: l) =
  match Leg.team leg with
  | Some t => if String.eqb t "" then [] else [(t, leg)]
  | None => []
  end ++ team_pairs l.
Proof. reflexivity. Qed.

(** With no truthy team twice, every team count is 1 and every team group a
    single leg. *)
Lemma team_collect_fresh (legs : list Leg.t) :
  NoDup (map fst (team_pairs legs)) ->
  team_collect legs = (map (fun p => (fst p, 1%nat)) (team_pairs legs),
                       map (fun p => (fst p, [snd p])) (team_pairs legs)).
Proof.
  intros Hnd. unfold team_collect.
  match goal with |- fold_left ?f _ _ = _ => set (step := f) end.
  assert (Hstep : forall tc tl leg, step (tc, tl) leg =
                   match Leg.team leg with
                   | Some t => if String.eqb t "" then (tc, tl)
                               else (map_incr t tc, teamLegs_add t leg tl)
                   | None => (tc, tl)
                   end) by reflexivity.
  clearbody step.
  assert (H : forall l tc tl, map fst tc = map fst tl ->
            NoDup (map fst tc ++ map fst (team_pairs l)) ->
            fold_left step l (tc, tl) =
            (tc ++ map (fun p => (fst p, 1%nat)) (team_pairs l),
             tl ++ map (fun p => (fst p, [snd p])) (team_pairs l))).
  { induction l as [|leg l IH]; intros tc tl Hk Hn; cbn [fold_left].
    - simpl; rewrite !app_nil_r. reflexivity.
    - rewrite Hstep. rewrite team_pairs_cons in Hn |- *.
      destruct (Leg.team leg) as [t|]; [destruct (String.eqb t "")|]; simpl in Hn |- *;
        try (apply IH; assumption).
      apply NoDup_app in Hn as (Hn1 & Hdis & Hn2).
      assert (Hnt : ~ In t (map fst tc)).
      { intros Hin. apply (Hdis t); [apply list_elem_of_In, Hin|left]. }
      unfold map_incr. rewrite (map_get_notin _ _ Hnt), map_set_fresh by exact Hnt.
      rewrite teamLegs_add_fresh by (rewrite <- Hk; exact Hnt).
      rewrite IH.
      + rewrite <- !app_assoc. reflexivity.
      + rewrite !map_app, Hk. reflexivity.
      + rewrite map_app, <- app_assoc. simpl. apply NoDup_app. split; [exact Hn1|].
        split; [exact Hdis|exact Hn2]. }
  apply (H legs [] []); [reflexivity|exact Hnd].
Qed.

(** ** C2 *)

Lemma js_max_Qeq (a a' b : Q) : a == a' -> js_max a b == js_max a' b.
Proof.
  intros H. unfold js_max.
  destruct (Qle_bool b a) eqn:E1, (Qle_bool b a') eqn:E2; qle_bool_hyps; lra.
Qed.

(** A loop whose every step scales the multiplier and appends penalties
    of types other than "same_game" does so as a whole. *)
Lemma fold_other_penalties {A} (step : Q * list PenaltyBreakdown -> A -> Q * list PenaltyBreakdown)
    (Hstep : forall m ps e, exists x added,
       fst (step (m, ps) e) == m * x /\ snd (step (m, ps) e) = ps ++ added /\
       Forall (fun p => ptype p <> "same_game") added) :
  forall (l : list A) m ps, exists x added,
    fst (fold_left step l (m, ps)) == m * x /\ snd (fold_left step l (m, ps)) = ps ++ added /\
    Forall (fun p => ptype p <> "same_game") added.
Proof.
  induction l as [|e l IH]; intros m ps; simpl.
  - exists 1, []. rewrite app_nil_r. repeat split; [ring|constructor].
  - destruct (Hstep m ps e) as (x1 & a1 & Hm1 & Hp1 & Hf1).
    destruct (step (m, ps) e) as [m1 ps1]. simpl in Hm1, Hp1. subst ps1.
    destruct (IH m1 (ps ++ a1)) as (x2 & a2 & Hm2 & Hp2 & Hf2).
    exists (x1 * x2), (a1 ++ a2). split; [rewrite Hm2, Hm1; ring|].
    split; [rewrite Hp2, app_assoc; reflexivity|]. apply Forall_app; split; assumption.
Qed.

Lemma same_team_step_other m ps (e : string * nat) : exists x added,
  fst (same_team_step (m, ps) e) == m * x /\ snd (same_team_step (m, ps) e) = ps ++ added /\
  Forall (fun p => ptype p <> "same_game") added.
Proof.
  destruct e as [t c]. unfold same_team_step. destruct (1 <? c)%nat.
  - eexists. eexists. split; [reflexivity|]. split; [reflexivity|].
    constructor; [simpl; discriminate|constructor].
  - exists 1, []. simpl. rewrite app_nil_r. repeat split; [ring|constructor].
Qed.

Lemma qb_wr_step_other m ps (e : string * list Leg.t) : exists x added,
  fst (qb_wr_step (m, ps) e) == m * x /\ snd (qb_wr_step (m, ps) e) = ps ++ added /\
  Forall (fun p => ptype p <> "same_game") added.
Proof.
  destruct e as [t ls]. unfold qb_wr_step. destruct (_ && _).
  - eexists. eexists. split; [reflexivity|]. split; [reflexivity|].
    constructor; [simpl; discriminate|constructor].
  - exists 1, []. simpl. rewrite app_nil_r. repeat split; [ring|constructor].
Qed.

(** C2: the same-game loop of [calculateParlayPenalties] visits each game
    key of the legs once, with its number of legs; for each key with more
    than one leg it multiplies the running multiplier by 0.90^(count - 1)
    and appends one penalty of type "same_game" with amount
    1 - 0.90^(count - 1), and leaves everything else unchanged. In
    [calculateParlayPenalties] these are exactly the "same_game" entries,
    at the head of the penalty list, and their factors are part of the
    multiplier applied to the base probability (the later loops only
    multiply in further factors and append entries of other types). For
    every two legs with smoothed probabilities 0.80 and 0.75 sharing a
    (non-empty) gameId and not sharing a team, the base is 0.60, the
    adjusted probability 0.54, and the penalty list has exactly one entry,
    of type "same_game" (amount 0.10). *)
Theorem calculateParlayPenalties_same_game (legs : list Leg.t) (m : Q) (ps : list PenaltyBreakdown) :
  let gameCounts := gameCounts_of legs in
  let shared := List.filter (fun e => (1 <? snd e)%nat) gameCounts in
  (NoDup (map fst gameCounts) /\
   (forall k c, In (k, c) gameCounts -> c = game_count k legs /\ (0 < c)%nat) /\
   (forall leg, In leg legs -> In (gameKey leg, game_count (gameKey leg) legs) gameCounts)) /\
  fst (same_game_penalties legs (m, ps)) ==
    m * fold_right (fun e acc => (9 # 10) ^ Z.of_nat (snd e - 1) * acc) 1 shared /\
  (exists added,
     snd (same_game_penalties legs (m, ps)) = ps ++ added /\
     map ptype added = map (fun _ => "same_game") shared /\
     map amount added = map (fun e => 1 - (9 # 10) ^ Z.of_nat (snd e - 1)) shared) /\
  (exists sg other x,
     snd (calculateParlayPenalties legs) = sg ++ other /\
     map ptype sg = map (fun _ => "same_game") shared /\
     map amount sg = map (fun e => 1 - (9 # 10) ^ Z.of_nat (snd e - 1)) shared /\
     Forall (fun p => ptype p <> "same_game") other /\
     fst (calculateParlayPenalties legs) ==
       js_max (calculateParlayProbability legs *
               (fold_right (fun e acc => (9 # 10) ^ Z.of_nat (snd e - 1) * acc) 1 shared * x)) 0) /\
  (forall l1 l2 : Leg.t,
     Leg.smoothedProb l1 == 80 # 100 -> Leg.smoothedProb l2 == 75 # 100 ->
     Leg.gameId l1 = Leg.gameId l2 -> truthy (Leg.gameId l1) = true ->
     (truthy (Leg.team l1) = true -> Leg.team l1 <> Leg.team l2) ->
     calculateParlayProbability [l1; l2] == 60 # 100 /\
     fst (calculateParlayPenalties [l1; l2]) == 54 # 100 /\
     exists p, snd (calculateParlayPenalties [l1; l2]) = [p] /\
       ptype p = "same_game" /\ amount p == 10 # 100).
Proof.
  cbv zeta. split; [apply gameCounts_of_spec|].
  destruct (same_game_fold (gameCounts_of legs) m ps) as [Hm Hps].
  split; [exact Hm|]. split; [exact Hps|]. split.
  { unfold calculateParlayPenalties.
    destruct (same_game_fold (gameCounts_of legs) 1 []) as [Hm1 (sg & Hsg & Ht & Ha)].
    unfold same_game_penalties. destruct (fold_left same_game_step (gameCounts_of legs) (1, []))
      as [m1 ps1] eqn:E1. simpl in Hm1, Hsg. subst ps1.
    destruct (team_collect legs) as [tc tl].
    destruct (fold_other_penalties same_team_step same_team_step_other tc m1 sg)
      as (x1 & a1 & Hx1 & Ha1 & Hf1).
    destruct (fold_left same_team_step tc (m1, sg)) as [m2 ps2]. simpl in Hx1, Ha1. subst ps2.
    destruct (fold_other_penalties qb_wr_step qb_wr_step_other tl m2 (sg ++ a1))
      as (x2 & a2 & Hx2 & Ha2 & Hf2).
    destruct (fold_left qb_wr_step tl (m2, sg ++ a1)) as [m3 ps3]. simpl in Hx2, Ha2. subst ps3.
    exists sg, (a1 ++ a2), (x1 * x2). simpl.
    split; [rewrite app_assoc; reflexivity|]. split; [exact Ht|]. split; [exact Ha|].
    split; [apply Forall_app; split; assumption|].
    apply js_max_Qeq. rewrite Hx2, Hx1, Hm1. unfold same_game_factor. ring. }
  intros l1 l2 H1 H2 Hid Htr Hteam.
  assert (Hk : gameKey l2 = gameKey l1).
  { unfold gameKey. rewrite <- Hid. destruct (Leg.gameId l1) as [g|]; [|discriminate].
    simpl in Htr |- *. destruct (String.eqb g ""); [discriminate|reflexivity]. }
  assert (Hgc : gameCounts_of [l1; l2] = [(gameKey l1, 2%nat)]).
  { unfold gameCounts_of, map_incr. simpl. rewrite Hk, String.eqb_refl. reflexivity. }
  assert (Hnd : NoDup (map fst (team_pairs [l1; l2]))).
  { rewrite !team_pairs_cons. simpl.
    destruct (Leg.team l1) as [t1|] eqn:T1; [destruct (String.eqb_spec t1 "")|];
      destruct (Leg.team l2) as [t2|] eqn:T2; try destruct (String.eqb_spec t2 "");
      simpl; repeat constructor; try set_solver.
    assert (Hne : Some t1 <> Some t2).
    { apply Hteam. simpl. destruct (String.eqb_spec t1 ""); [contradiction|reflexivity]. }
    intros Hin. apply list_elem_of_In in Hin. destruct Hin as [E|[]]. congruence. }
  assert (Hbase : calculateParlayProbability [l1; l2] == 60 # 100).
  { unfold calculateParlayProbability. simpl. rewrite H1, H2. reflexivity. }
  split; [exact Hbase|].
  unfold calculateParlayPenalties, same_game_penalties.
  rewrite Hgc, (team_collect_fresh _ Hnd), same_team_fold_ones, qb_wr_fold_singletons.
  simpl. split.
  - rewrite (js_max_Qeq _ (54 # 100) 0); [reflexivity|].
    rewrite Hbase. reflexivity.
  - eexists. split; [reflexivity|]. split; reflexivity.
Qed.

Lemma calculateParlayPenalties_same_game_witness :
  let l1 := sample_leg "wr1" rec_yards 40 (80 # 100) "G1" "BUF" "WR" in
  let l2 := sample_leg "rb1" rush_yards 25 (75 # 100) "G1" "KC" "RB" in
  same_game_legs = [l1; l2] /\
  Leg.gameId l1 = Leg.gameId l2 /\ truthy (Leg.gameId l1) = true /\
  Leg.team l1 <> Leg.team l2 /\
  fst (calculateParlayPenalties [l1; l2]) == 54 # 100.
Proof.
  cbv zeta.
  assert (Ht : truthy (Some "BUF") = true -> Some "BUF" <> Some "KC")
    by (intros _; discriminate).
  split; [reflexivity|]. split; [reflexivity|]. split; [reflexivity|].
  split; [exact (Ht eq_refl)|].
  exact (proj1 (proj2 (proj2 (proj2 (proj2 (proj2
    (calculateParlayPenalties_same_game [] 1 []))))
    (sample_leg "wr1" rec_yards 40 (80 # 100) "G1" "BUF" "WR")
    (sample_leg "rb1" rush_yards 25 (75 # 100) "G1" "KC" "RB")
    (Qeq_refl _) (Qeq_refl _) eq_refl eq_refl Ht))).
Defined.

(** X8. When no two legs share a game key ([gameId || gameDate ||
    'unknown']) and no two legs share a truthy team,
    [calculateParlayPenalties] reports no penalty and returns the product
    of the smoothed probabilities, floored at 0. *)
Theorem calculateParlayPenalties_independent (legs : list Leg.t) :
  NoDup (map gameKey legs) -> NoDup (map fst (team_pairs legs)) ->
  snd (calculateParlayPenalties legs) = [] /\
  fst (calculateParlayPenalties legs) == js_max (calculateParlayProbability legs) 0.
Proof.
  intros Hg Ht. unfold calculateParlayPenalties.
  assert (Hsg : same_game_penalties legs (1, []) = (1, [])).
  { unfold same_game_penalties. apply same_game_fold_id, Forall_forall.
    intros [k c] Hin. apply list_elem_of_In in Hin.
    destruct (gameCounts_of_spec legs) as (_ & Hc & _).
    destruct (Hc k c Hin) as [-> _]. apply filter_key_count, Hg. }
  rewrite Hsg, (team_collect_fresh legs Ht), same_team_fold_ones, qb_wr_fold_singletons.
  simpl. split; [reflexivity|].
  unfold js_max. destruct (Qle_bool 0 (calculateParlayProbability legs * 1)) eqn:E1,
    (Qle_bool 0 (calculateParlayProbability legs)) eqn:E2; qle_bool_hyps; lra.
Qed.

Lemma calculateParlayPenalties_independent_witness :
  NoDup (map gameKey three_legs) /\ NoDup (map fst (team_pairs three_legs)) /\
  snd (calculateParlayPenalties three_legs) = [].
Proof.
  assert (H1 : NoDup (map gameKey three_legs))
    by (apply (bool_decide_unpack (NoDup (map gameKey three_legs))); vm_compute; exact I).
  assert (H2 : NoDup (map fst (team_pairs three_legs)))
    by (apply (bool_decide_unpack (NoDup (map fst (team_pairs three_legs)))); vm_compute; exact I).
  exact (conj H1 (conj H2 (proj1 (calculateParlayPenalties_independent three_legs H1 H2)))).
Defined.

(** ** Game count and parlay score *)

Lemma countUniqueGames_set (legs : list Leg.t) :
  countUniqueGames legs = size (list_to_set (map gameKey legs) : gset string).
Proof.
  unfold countUniqueGames.
  assert (H : forall l (acc : gset string),
            fold_left (fun games leg => {[ gameKey leg ]} ∪ games) l acc =
            list_to_set (map gameKey l) ∪ acc).
  { induction l as [|leg l IH]; intros acc; simpl; [set_solver|]. rewrite IH. set_solver. }
  rewrite H, union_empty_r_L. reflexivity.
Qed.

Lemma countUniqueGames_le (legs : list Leg.t) : (countUniqueGames legs <= length legs)%nat.
Proof.
  rewrite countUniqueGames_set. pose proof (size_list_to_set_le (map gameKey legs)) as H.
  rewrite length_map in H. exact H.
Qed.

(** X9. [countUniqueGames] counts the distinct game keys of the legs: never
    more than the number of legs, and exactly that number iff no two legs
    share a game key. *)
Theorem countUniqueGames_spec (legs : list Leg.t) :
  countUniqueGames legs = size (list_to_set (map gameKey legs) : gset string) /\
  (countUniqueGames legs <= length legs)%nat /\
  (countUniqueGames legs = length legs <-> NoDup (map gameKey legs)).
Proof.
  split; [apply countUniqueGames_set|]. split; [apply countUniqueGames_le|].
  rewrite countUniqueGames_set. split.
  - intros H. apply NoDup_of_set_size. rewrite length_map. exact H.
  - intros H. rewrite size_list_to_set by exact H. apply length_map.
Qed.


Lemma Qnat_ratio_unit (a b : nat) : (a <= b)%nat -> (0 < b)%nat -> 0 <= Qnat a / Qnat b <= 1.
Proof.
  intros Hab Hb. unfold Qnat.
  assert (H0 : 0 < inject_Z (Z.of_nat b)) by (change 0 with (inject_Z 0); rewrite <- Zlt_Qlt; lia).
  assert (H1 : 0 <= inject_Z (Z.of_nat a)) by (change 0 with (inject_Z 0); rewrite <- Zle_Qle; lia).
  assert (H2 : inject_Z (Z.of_nat a) <= inject_Z (Z.of_nat b)) by (rewrite <- Zle_Qle; lia).
  split.
  - apply Qle_shift_div_l; [exact H0|]. lra.
  - apply Qle_shift_div_r; [exact H0|]. lra.
Qed.

Lemma score_penalty_nonneg (l : list (string * nat)) (acc : Q) :
  0 <= acc ->
  0 <= fold_left (fun penalty (e : string * nat) =>
                    if (1 <? snd e)%nat then penalty + Qnat (snd e - 1) * (15 # 100) else penalty)
         l acc.
Proof.
  revert acc; induction l as [|e l IH]; intros acc Hacc; simpl; [exact Hacc|].
  apply IH. destruct (1 <? snd e)%nat; [|exact Hacc].
  assert (0 <= Qnat (snd e - 1)) by (unfold Qnat; change 0 with (inject_Z 0); rewrite <- Zle_Qle; lia).
  lra.
Qed.

(** X10. [calculateParlayScore] is [NaN] (here [None]) on no legs; on legs
    with smoothed probabilities in [0,1] it lies between 0.1 and 1.15 times
    the product of the probabilities: the diversity and volume bonuses add
    at most 10% and 5%, and the score is floored at a tenth of the product. *)
Theorem calculateParlayScore_bounds (legs : list Leg.t) :
  Forall (fun l => 0 <= Leg.smoothedProb l <= 1) legs ->
  (legs = [] -> calculateParlayScore legs = None) /\
  (legs <> [] -> exists s, calculateParlayScore legs = Some s /\
     calculateParlayProbability legs * (1 # 10) <= s <= calculateParlayProbability legs * (23 # 20)).
Proof.
  intros Hp. split; [intros ->; reflexivity|]. intros Hne.
  pose proof (calculateParlayProbability_unit legs Hp) as Hb.
  unfold calculateParlayScore. cbv zeta.
  destruct (Nat.eqb_spec (length legs) 0) as [E|_]; [destruct legs; [contradiction|discriminate]|].
  assert (Hn : (0 < length legs)%nat) by (destruct legs; [contradiction|simpl; lia]).
  pose proof (Qnat_ratio_unit _ _ (countUniqueGames_le legs) Hn) as Hr1.
  pose proof (Qnat_ratio_unit _ _ (length_filter_le
                (fun leg => isVolumeStat (Leg.statType leg) (Leg.position leg)) legs) Hn) as Hr2.
  pose proof (score_penalty_nonneg (countTeamScoringDependencies legs) 0 (Qle_refl 0)) as Hpen.
  set (base := calculateParlayProbability legs) in *.
  set (r1 := Qnat (countUniqueGames legs) / Qnat (length legs)) in *.
  set (r2 := Qnat (length (List.filter _ legs)) / Qnat (length legs)) in *.
  set (pen := fold_left _ (countTeamScoringDependencies legs) 0) in *.
  eexists. split; [reflexivity|].
  assert (Hx : 0 <= base * ((23 # 20) - (1 + r1 * (1 # 10) + r2 * (5 # 100) - pen)))
    by (apply Qmult_le_0_compat; lra).
  unfold js_max. destruct (Qle_bool _ _) eqn:E; qle_bool_hyps; split; lra.
Qed.

Lemma calculateParlayScore_bounds_witness :
  Forall (fun l => 0 <= Leg.smoothedProb l <= 1) three_legs /\
  exists s, calculateParlayScore three_legs = Some s /\
    calculateParlayProbability three_legs * (1 # 10) <= s <=
    calculateParlayProbability three_legs * (23 # 20).
Proof.
  assert (H : Forall (fun l => 0 <= Leg.smoothedProb l <= 1) three_legs)
    by (repeat constructor; vm_compute; discriminate).
  split; [exact H|].
  exact (proj2 (calculateParlayScore_bounds three_legs H) ltac:(discriminate)).
Defined.

(** ** Activity filter *)

(** X11. A team is in [getByeWeekTeams logs week season] iff some log has it
    as its (non-empty) team and no log has it at that week and season. *)
Theorem getByeWeekTeams_members (gameLogs : list GameLog.t) (week season : Q) (t : string) :
  t ∈ getByeWeekTeams gameLogs week season <->
  (exists log, In log gameLogs /\ GameLog.team log = Some t /\ t <> "") /\
  ~ (exists log, In log gameLogs /\ GameLog.team log = Some t /\
       opt_Q_eqb (GameLog.week log) week = true /\
       opt_Q_eqb (GameLog.season log) season = true /\ t <> "").
Proof. apply getByeWeekTeams_spec. Qed.

(** The active ids: [set_fold] keeps an id iff its status is active. *)
Lemma active_ids_spec (P : string -> bool) (X : gset string) (y : string) :
  y ∈ set_fold (fun playerId acc => if P playerId then {[ playerId ]} ∪ acc else acc)
        (∅ : gset string) X <-> y ∈ X /\ P y = true.
Proof.
  revert y.
  apply (set_fold_ind_L (fun (r : gset string) (X : gset string) =>
           forall y, y ∈ r <-> y ∈ X /\ P y = true)).
  - intros y. set_solver.
  - intros x X' r Hx IH y. destruct (P x) eqn:E.
    + rewrite elem_of_union, elem_of_singleton, IH, elem_of_union, elem_of_singleton.
      split; [intros [->|[? ?]]; tauto|intros [[->|?] ?]; tauto].
    + rewrite IH, elem_of_union, elem_of_singleton.
      split; [tauto|intros [[->|?] ?]; [congruence|tauto]].
Qed.

(** X12. [filterActivePlayers] keeps, in input order, exactly the logs with
    a non-empty player id whose [isPlayerActive] status (over all the logs,
    at that week and season) is active. *)
Theorem filterActivePlayers_spec (getTime : string -> Z) (gameLogs : list GameLog.t)
    (currentWeek season : Q) :
  filterActivePlayers getTime gameLogs currentWeek season =
  List.filter (fun log =>
      negb (String.eqb (GameLog.playerId log) "") &&
      PlayerStatus.isActive (isPlayerActive getTime gameLogs (GameLog.playerId log) currentWeek season))
    gameLogs.
Proof.
  unfold filterActivePlayers. cbv zeta. apply filter_ext_in. intros log Hlog.
  apply Bool.eq_iff_eq_true. rewrite bool_decide_eq_true, active_ids_spec.
  rewrite (fold_add_elem _ (fun log t => GameLog.playerId log = t /\ t <> "")).
  - rewrite andb_true_iff, negb_true_iff.
    split.
    + intros [[H|(x & _ & <- & Hx)] Ha]; [set_solver|].
      split; [now apply String.eqb_neq|exact Ha].
    + intros [Hn Ha]. split; [|exact Ha]. right. exists log.
      split; [exact Hlog|]. split; [reflexivity|now apply String.eqb_neq].
  - intros s x. unfold truthy; simpl. destruct (String.eqb_spec (GameLog.playerId x) ""); simpl.
    + split; [tauto|]. intros [H|[Ht Hn]]; [exact H|congruence].
    + rewrite elem_of_union, elem_of_singleton. split.
      * intros [->|H]; [right; split; [reflexivity|exact n]|left; exact H].
      * intros [H|[<- _]]; [right; exact H|left; reflexivity].
Qed.

(** ** Cache file names *)

Lemma key_unit_allowed_95 : key_unit_allowed 95%N = true.
Proof. reflexivity. Qed.

Lemma sanitizeKey_allowed (key : js_string) :
  Forall (fun c => key_unit_allowed c = true) (sanitizeKey key).
Proof.
  induction key as [|c key IH]; simpl; constructor; [|exact IH].
  destruct (key_unit_allowed c) eqn:E; [exact E|exact key_unit_allowed_95].
Qed.

Lemma sanitizeKey_fixed (key : js_string) :
  sanitizeKey key = key <-> Forall (fun c => key_unit_allowed c = true) key.
Proof.
  induction key as [|c key IH]; simpl; [split; [constructor|reflexivity]|].
  destruct (key_unit_allowed c) eqn:E; split.
  - intros H. injection H as Hk. constructor; [exact E|apply IH, Hk].
  - intros H. inversion H; subst. f_equal. apply IH. assumption.
  - intros H. injection H as Hc _. subst c. discriminate.
  - intros H. inversion H; congruence.
Qed.

Lemma getCacheFilePath_endsWith (key : js_string) :
  js_endsWith (getCacheFilePath key) (js_of_string ".json") = true.
Proof.
  unfold js_endsWith, getCacheFilePath. rewrite length_app.
  rewrite Nat.add_sub, drop_app_length.
  rewrite !bool_decide_eq_true_2; [reflexivity|reflexivity|lia].
Qed.

(** X13. The cache file of a key is the key with every UTF-16 code unit
    outside [a-zA-Z0-9-_] replaced by '_', followed by ".json": the name
    has the key's length plus 5, contains no '/' or '\' and a single '.'
    (that of ".json"), so it stays a plain file of [CACHE_DIR]; a key made of
    allowed units only is kept as it is, and sanitizing twice is sanitizing
    once. *)
Theorem getCacheFilePath_safe (key : js_string) :
  let name := getCacheFilePath key in
  Forall (fun c => key_unit_allowed c = true) (sanitizeKey key) /\
  length name = (length key + 5)%nat /\
  ~ In 47%N name /\ ~ In 92%N name /\
  List.filter (fun c => (c =? 46)%N) name = [46%N] /\
  js_endsWith name (js_of_string ".json") = true /\
  (sanitizeKey key = key <-> Forall (fun c => key_unit_allowed c = true) key) /\
  sanitizeKey (sanitizeKey key) = sanitizeKey key.
Proof.
  cbv zeta. pose proof (sanitizeKey_allowed key) as Ha.
  assert (Hsuffix : forall c, In c (getCacheFilePath key) -> key_unit_allowed c = false ->
                      In c (js_of_string ".json")).
  { intros c Hin Hc. unfold getCacheFilePath in Hin. apply in_app_or in Hin as [Hin|Hin];
      [|exact Hin].
    rewrite Forall_forall in Ha. apply list_elem_of_In in Hin. rewrite (Ha c Hin) in Hc.
    discriminate. }
  split; [exact Ha|]. split.
  { unfold getCacheFilePath, sanitizeKey. rewrite length_app, length_map. reflexivity. }
  split; [intros Hin; pose proof (Hsuffix _ Hin eq_refl) as H; simpl in H;
          destruct_or? H; discriminate|].
  split; [intros Hin; pose proof (Hsuffix _ Hin eq_refl) as H; simpl in H;
          destruct_or? H; discriminate|].
  split.
  { unfold getCacheFilePath. rewrite List.filter_app.
    assert (Hs : forall l, Forall (fun c => key_unit_allowed c = true) l ->
                   List.filter (fun c => (c =? 46)%N) l = []).
    { intros l Hl. induction Hl as [|c l Hc _ IH]; simpl; [reflexivity|].
      destruct (N.eqb_spec c 46) as [->|]; [discriminate|exact IH]. }
    rewrite (Hs _ Ha). reflexivity. }
  split; [apply getCacheFilePath_endsWith|].
  split; [apply sanitizeKey_fixed|]. apply sanitizeKey_fixed, Ha.
Qed.

Lemma map_eq_Forall2 {A B} (f : A -> B) (l1 l2 : list A) :
  map f l1 = map f l2 <-> Forall2 (fun a b => f a = f b) l1 l2.
Proof.
  revert l2; induction l1 as [|a l1 IH]; intros [|b l2]; simpl.
  - split; [constructor|reflexivity].
  - split; [discriminate|intros H; inversion H].
  - split; [discriminate|intros H; inversion H].
  - split.
    + intros H. injection H as Hab Hl. constructor; [exact Hab|apply IH, Hl].
    + intros H. inversion H; subst. f_equal; [assumption|apply IH; assumption].
Qed.

Lemma sanitize_unit_eq (a b : N) :
  (if key_unit_allowed a then a else 95%N) = (if key_unit_allowed b then b else 95%N) <->
  a = b \/ ((key_unit_allowed a = false \/ a = 95%N) /\ (key_unit_allowed b = false \/ b = 95%N)).
Proof.
  destruct (key_unit_allowed a) eqn:Ea, (key_unit_allowed b) eqn:Eb; split.
  - intros ->. left. reflexivity.
  - intros [->|[[Ha| ->] [Hb| ->]]]; [reflexivity|discriminate|discriminate|discriminate|reflexivity].
  - intros ->. right. split; [right; reflexivity|left; reflexivity].
  - intros [->|[[Ha| ->] _]]; [congruence|discriminate|reflexivity].
  - intros <-. right. split; [left; reflexivity|right; reflexivity].
  - intros [->|[_ [Hb| ->]]]; [congruence|discriminate|reflexivity].
  - intros _. right. split; left; reflexivity.
  - intros _. reflexivity.
Qed.

(** X14. Two keys share a cache file iff they have the same length and, at
    every position, the same code unit or two units that both become '_'
    (a unit outside [a-zA-Z0-9-_], or '_' itself). *)
Theorem getCacheFilePath_collision (key1 key2 : js_string) :
  getCacheFilePath key1 = getCacheFilePath key2 <->
  Forall2 (fun a b => a = b \/
             ((key_unit_allowed a = false \/ a = 95%N) /\ (key_unit_allowed b = false \/ b = 95%N)))
    key1 key2.
Proof.
  unfold getCacheFilePath. split.
  - intros H. apply app_inv_tail in H. unfold sanitizeKey in H.
    apply map_eq_Forall2 in H. eapply Forall2_impl; [exact H|].
    intros a b. apply sanitize_unit_eq.
  - intros H. f_equal. apply map_eq_Forall2. eapply Forall2_impl; [exact H|].
    intros a b. apply sanitize_unit_eq.
Qed.

(** ** Cache store *)

Section CacheProofs.
Context {V : Type}.
Variable stringify : CacheEntry V -> string.
Variable parse : string -> option (CacheEntry V).

(** X15. After [setCache(key, data, ttl)] at time [now1], [getCache] of any
    key with the same file name at a time [now2 <= now1 + ttl] returns
    [data] and leaves the files as they are, provided [JSON.parse] reads
    back the entry [JSON.stringify] wrote. *)
Theorem setCache_getCache (key key' : js_string) (d : V) (ttl now1 now2 : Q) (fs : gmap js_string string) :
  parse (stringify (mkCacheEntry d (now1 + ttl))) = Some (mkCacheEntry d (now1 + ttl)) ->
  getCacheFilePath key' = getCacheFilePath key ->
  now2 <= now1 + ttl ->
  getCache parse key' now2 (setCache stringify key d ttl now1 fs) =
  (Some d, setCache stringify key d ttl now1 fs).
Proof.
  intros Hrt Hp Hle. unfold getCache, setCache. cbv zeta. rewrite Hp, lookup_insert_eq, Hrt. simpl.
  unfold Qltb. apply Qle_bool_iff in Hle. rewrite Hle. reflexivity.
Qed.

(** X16. After [setCache(key, data, ttl)] at time [now1], [getCache] of a
    key with the same file name after [now1 + ttl] returns [null] and
    removes the file: the files are those [deleteCache(key)] leaves. *)
Theorem setCache_getCache_expired (key key' : js_string) (d : V) (ttl now1 now2 : Q) (fs : gmap js_string string) :
  parse (stringify (mkCacheEntry d (now1 + ttl))) = Some (mkCacheEntry d (now1 + ttl)) ->
  getCacheFilePath key' = getCacheFilePath key ->
  now1 + ttl < now2 ->
  getCache parse key' now2 (setCache stringify key d ttl now1 fs) = (None, deleteCache key fs).
Proof.
  intros Hrt Hp Hlt. unfold getCache, setCache, deleteCache. cbv zeta.
  rewrite Hp, lookup_insert_eq, Hrt. simpl.
  unfold Qltb. destruct (Qle_bool now2 (now1 + ttl)) eqn:E; qle_bool_hyps; [lra|].
  simpl. rewrite delete_insert_eq. reflexivity.
Qed.

(** X17. Keys with different file names do not interfere: [setCache] and
    [deleteCache] of one key leave the result of [getCache] of the other
    unchanged. *)
Theorem cache_keys_independent (key key' : js_string) (d : V) (ttl now1 now : Q) (fs : gmap js_string string) :
  getCacheFilePath key <> getCacheFilePath key' ->
  fst (getCache parse key' now (setCache stringify key d ttl now1 fs)) =
    fst (getCache parse key' now fs) /\
  fst (getCache parse key' now (deleteCache key fs)) = fst (getCache parse key' now fs).
Proof.
  intros Hne. unfold getCache, setCache, deleteCache. cbv zeta.
  rewrite lookup_insert_ne, lookup_delete_ne by exact Hne.
  destruct (fs !! getCacheFilePath key') as [c|]; [|split; reflexivity].
  destruct (parse c) as [e|]; [|split; reflexivity].
  destruct (Qltb (expiresAt e) now); split; reflexivity.
Qed.

(** X18. [getCache] returns [null] for a key without a file (leaving the
    files as they are), after [deleteCache] of a key with the same file
    name, and for every key after [clearCache]; [clearCache] removes
    exactly the files whose names end in ".json". *)
Theorem getCache_missing_deleted_cleared (key key' : js_string) (now : Q) (fs : gmap js_string string) :
  (fs !! getCacheFilePath key = None -> getCache parse key now fs = (None, fs)) /\
  (getCacheFilePath key' = getCacheFilePath key ->
   fst (getCache parse key' now (deleteCache key fs)) = None) /\
  getCache parse key now (clearCache fs) = (None, clearCache fs) /\
  (forall name, clearCache fs !! name =
     if js_endsWith name (js_of_string ".json") then None else fs !! name).
Proof.
  assert (Hclear : forall name, clearCache fs !! name =
     if js_endsWith name (js_of_string ".json") then None else fs !! name).
  { intros name. unfold clearCache.
    destruct (js_endsWith name (js_of_string ".json")) eqn:E.
    - apply map_lookup_filter_None. right. intros x _. simpl. rewrite E. discriminate.
    - destruct (fs !! name) as [x|] eqn:Ex.
      + apply map_lookup_filter_Some. split; [exact Ex|exact E].
      + apply map_lookup_filter_None. left. exact Ex. }
  split; [intros H; unfold getCache; cbv zeta; rewrite H; reflexivity|].
  split; [intros Hp; unfold getCache, deleteCache; cbv zeta; rewrite Hp, lookup_delete_eq; reflexivity|].
  split; [|exact Hclear].
  unfold getCache. cbv zeta. rewrite Hclear, getCacheFilePath_endsWith. reflexivity.
Qed.

End CacheProofs.

Lemma setCache_getCache_witness :
  let stringify := fun _ : CacheEntry Q => "entry" in
  let parse := fun _ : string => Some (mkCacheEntry (1 : Q) 5) in
  getCache parse (js_of_string "a:b") 4
    (setCache stringify (js_of_string "a/b") 1 3 2 ∅) =
  (Some 1, setCache stringify (js_of_string "a/b") 1 3 2 ∅).
Proof.
  cbv zeta.
  exact (setCache_getCache (fun _ : CacheEntry Q => "entry")
           (fun _ : string => Some (mkCacheEntry (1 : Q) 5))
           (js_of_string "a/b") (js_of_string "a:b") 1 3 2 4 ∅
           eq_refl ltac:(vm_compute; reflexivity) ltac:(vm_compute; discriminate)).
Defined.

Lemma setCache_getCache_expired_witness :
  let stringify := fun _ : CacheEntry Q => "entry" in
  let parse := fun _ : string => Some (mkCacheEntry (1 : Q) 5) in
  getCache parse (js_of_string "a/b") 6
    (setCache stringify (js_of_string "a/b") 1 3 2 ∅) =
  (None, deleteCache (js_of_string "a/b") ∅).
Proof.
  cbv zeta.
  exact (setCache_getCache_expired (fun _ : CacheEntry Q => "entry")
           (fun _ : string => Some (mkCacheEntry (1 : Q) 5))
           (js_of_string "a/b") (js_of_string "a/b") 1 3 2 6 ∅
           eq_refl eq_refl ltac:(vm_compute; reflexivity)).
Defined.

Lemma cache_keys_independent_witness :
  let stringify := fun _ : CacheEntry Q => "entry" in
  let parse := fun _ : string => Some (mkCacheEntry (1 : Q) 5) in
  fst (getCache parse (js_of_string "b") 4 (setCache stringify (js_of_string "a") 1 3 2 ∅)) =
    fst (getCache parse (js_of_string "b") 4 ∅).
Proof.
  cbv zeta.
  exact (proj1 (cache_keys_independent (fun _ : CacheEntry Q => "entry")
           (fun _ : string => Some (mkCacheEntry (1 : Q) 5))
           (js_of_string "a") (js_of_string "b") 1 3 2 4 ∅ ltac:(vm_compute; discriminate))).
Defined.

Lemma getCache_missing_deleted_cleared_witness :
  let parse := fun _ : string => Some (mkCacheEntry (1 : Q) 5) in
  getCache parse (js_of_string "a") 4 ∅ = (None, ∅).
Proof.
  cbv zeta.
  exact (proj1 (getCache_missing_deleted_cleared
           (fun _ : string => Some (mkCacheEntry (1 : Q) 5))
           (js_of_string "a") (js_of_string "a") 4 ∅) eq_refl).
Defined.
